(** * Health Tracker PWA service worker ([core/service-worker.js])

    A shallow embedding of the worker's event listeners over an explicit
    model of the host runtime (cache storage, network, window clients,
    console), followed by the properties of the listeners.

    The worker itself owns no data: every listener is a chain of promise
    callbacks over host objects.  The embedding therefore has three layers:

    - [Js]: the few JavaScript notions the listeners rely on (string
      tests, JSON-like values, truthiness, property access);
    - [Host]: the state of the runtime and the promise monad in which the
      host calls are sequenced;
    - the worker: [CACHE_NAME], [FILES_TO_CACHE] and one definition per
      [addEventListener] call of the source. *)

From Stdlib Require Import String Ascii List Bool ZArith Lia DecimalString.
Import ListNotations.
Open Scope string_scope.
Set Warnings "-register-all".

(* ================================================================== *)
(** ** JavaScript strings and values *)
(* ================================================================== *)

Module Js.

(** [s.startsWith(p)] *)
Definition startsWith (s p : string) : bool := String.prefix p s.

(** [s.includes(p)]: [p] occurs somewhere in [s]. *)
Fixpoint includes (s p : string) : bool :=
  startsWith s p ||
  match s with
  | EmptyString => false
  | String _ rest => includes rest p
  end.

(** Values that [JSON.parse] and the structured clone of a plain message
    produce.  Numbers are kept integral; an object is its list of own
    properties, each key occurring once. *)
Inductive Value : Type :=
| Undefined
| Null
| Bool (b : bool)
| Num (n : Z)
| Str (s : string)
| Arr (items : list Value)
| Obj (props : list (string * Value)).

(** ToBoolean. *)
Definition truthy (v : Value) : bool :=
  match v with
  | Undefined | Null => false
  | Bool b => b
  | Num n => negb (n =? 0)%Z
  | Str s => negb (s =? "")
  | Arr _ | Obj _ => true
  end.

(** [a || b] *)
Definition or_else (a b : Value) : Value := if truthy a then a else b.

(** [v === 'lit'] for a string literal. *)
Definition is_str (v : Value) (lit : string) : bool :=
  match v with
  | Str s => s =? lit
  | _ => false
  end.

Fixpoint lookup (k : string) (props : list (string * Value)) : Value :=
  match props with
  | [] => Undefined
  | (k', v) :: rest => if k' =? k then v else lookup k rest
  end.

(** [v.k].  [None] stands for the TypeError raised when [v] is [null] or
    [undefined]; primitives and arrays have none of the property names
    the worker reads, so they yield [undefined]. *)
Definition prop (v : Value) (k : string) : option Value :=
  match v with
  | Undefined | Null => None
  | Obj props => Some (lookup k props)
  | _ => Some Undefined
  end.

(** ToString, as used by a template literal. *)
Fixpoint to_string (v : Value) : string :=
  match v with
  | Undefined => "undefined"
  | Null => "null"
  | Bool true => "true"
  | Bool false => "false"
  | Num n => NilZero.string_of_int (Z.to_int n)
  | Str s => s
  | Obj _ => "[object Object]"
  | Arr items =>
      (fix join (l : list Value) : string :=
         match l with
         | [] => ""
         | x :: rest =>
             let shown := match x with
                          | Undefined | Null => ""
                          | _ => to_string x
                          end in
             match rest with
             | [] => shown
             | _ :: _ => shown ++ "," ++ join rest
             end
         end) items
  end.

End Js.

(* ================================================================== *)
(** ** URLs *)
(* ================================================================== *)

Module Url.

(** Keep the characters of [u] up to, and without, the slash that follows
    [n] earlier slashes. *)
Fixpoint cut_at_slash (n : nat) (u : string) : string :=
  match u with
  | EmptyString => EmptyString
  | String c rest =>
      if Ascii.eqb c "/" then
        match n with
        | O => EmptyString
        | S n' => String c (cut_at_slash n' rest)
        end
      else String c (cut_at_slash n rest)
  end.

(** The serialised origin of a serialised http(s) URL without userinfo:
    [scheme://host[:port]], that is everything before the slash that
    opens the path. *)
Definition origin_of (u : string) : string := cut_at_slash 2 u.

End Url.

(* ================================================================== *)
(** ** The host runtime *)
(* ================================================================== *)

Module Host.

(** *** Requests, responses and caches *)

(** A request as the worker sees it: a serialised http(s) URL, without
    fragment, and a method.  Requests carry no headers here, so a [Vary]
    list naming header fields never distinguishes two of them. *)
Record Request := { url : string; method : string }.

Inductive ResponseType :=
| Basic | Cors | Default | Error_ | Opaque | OpaqueRedirect.

Record Response := {
  status : Z;
  type : ResponseType;
  vary : list string;   (* field names of the Vary header *)
  body : string
}.

(** A cache is its request/response list in insertion order; cache
    storage is the list of named caches in creation order. *)
Definition Cache := list (Request * Response).
Definition CacheStorage := list (string * Cache).

(** *** Window and worker clients *)

Inductive ClientType := Window | Worker | SharedWorker.

Record Client := {
  client_url : string;
  client_type : ClientType;
  controlled : bool
}.

(** *** Notifications *)

Record NotificationAction := { action : string; action_title : string }.

(** The [options] object handed to [showNotification]; [data] is [None]
    while the property is absent. *)
Record NotificationOptions := {
  opt_body : Js.Value;
  icon : string;
  badge : string;
  tag : Js.Value;
  requireInteraction : bool;
  actions : list NotificationAction;
  data : option Js.Value
}.

(** *** Errors and console *)

Inductive Error :=
| TypeError (msg : string)
| SyntaxError (msg : string)
| UnknownError (msg : string).

Inductive LogLine :=
| Log (msg : string)
| LogError (msg : string).

(** *** Host calls

    Every call the worker makes into the runtime is recorded, in call
    order, so that "no cache read", "no network fetch" and the like are
    statements about this trace. *)
Inductive Call :=
| SkipWaiting
| ClientsClaim
| CachesOpen (name : string)
| CachesMatch (req : Request)
| CachesKeys
| CachesDelete (name : string)
| CachePut (name : string) (req : Request) (resp : Response)
| CacheAddAll (name : string) (urls : list string)
| Fetch (req : Request)
| ShowNotification (title : Js.Value) (options : NotificationOptions)
| NotificationClose
| ClientsMatchAll
| PostMessage (target : Client) (message : Js.Value)
| Focus (target : Client)
| OpenWindow (target_url : string).

(** *** Environment and state *)

(** What the worker reads but never changes. *)
Record Env := {
  origin : string;                       (* self.location.origin *)
  scope : string;                        (* self.registration.scope *)
  base : string;                         (* directory of the worker script *)
  network : Request -> option Response;  (* None: network error *)
  storage_fails : string -> bool;        (* backend refuses to delete this cache *)
  clients : list Client                  (* clients of this origin, host order *)
}.

Record World := {
  storage : CacheStorage;
  console : list LogLine;
  calls : list Call
}.

Definition with_storage (s : CacheStorage) (w : World) : World :=
  {| storage := s; console := console w; calls := calls w |}.

Definition with_log (l : LogLine) (w : World) : World :=
  {| storage := storage w; console := (console w ++ [l])%list;
     calls := calls w |}.

Definition with_call (c : Call) (w : World) : World :=
  {| storage := storage w; console := console w;
     calls := (calls w ++ [c])%list |}.

(** *** Promises

    Asynchronous work is run to settlement against a state, in the order
    the callbacks are chained.  [Rejected] is also how a synchronous
    [throw] is represented.  The state is the [World] for promises; a
    block of statements over local variables uses the same combinators
    with the locals as state. *)
Inductive Settled (A : Type) :=
| Fulfilled (a : A)
| Rejected (e : Error).
Arguments Fulfilled {A} a.
Arguments Rejected {A} e.

Definition Eff (S A : Type) := S -> Settled A * S.
Definition Promise (A : Type) := Eff World A.

Definition resolve {S A} (a : A) : Eff S A := fun s => (Fulfilled a, s).
Definition reject {S A} (e : Error) : Eff S A := fun s => (Rejected e, s).

(** [p.then(k)], and statement sequencing. *)
Definition then_ {S A B} (p : Eff S A) (k : A -> Eff S B) : Eff S B :=
  fun s =>
    match p s with
    | (Fulfilled a, s') => k a s'
    | (Rejected e, s') => (Rejected e, s')
    end.

(** [p.catch(k)], and [try { p } catch (e) { k e }]. *)
Definition catch_ {S A} (p : Eff S A) (k : Error -> Eff S A) : Eff S A :=
  fun s =>
    match p s with
    | (Fulfilled a, s') => (Fulfilled a, s')
    | (Rejected e, s') => k e s'
    end.

(** A promise that is started and not awaited: its effects happen, its
    settlement (a rejection included) reaches nobody. *)
Definition detached {S A} (p : Eff S A) : Eff S unit :=
  fun s => (Fulfilled tt, snd (p s)).

(** A promise handed to [event.waitUntil] or [event.respondWith]: the
    listener goes on without throwing whatever the settlement, which is
    what the host observes. *)
Definition handed_over {S A} (p : Eff S A) : Eff S (Settled A) :=
  fun s => (Fulfilled (fst (p s)), snd (p s)).

(** [Promise.all(ps)] over promises listed in the order they were
    started: every one runs; the result rejects with the first rejection. *)
Fixpoint all {S A} (ps : list (Eff S A)) : Eff S (list A) :=
  fun s =>
    match ps with
    | [] => (Fulfilled [], s)
    | p :: rest =>
        let (r, s1) := p s in
        let (rs, s2) := all rest s1 in
        (match r, rs with
         | Fulfilled a, Fulfilled l => Fulfilled (a :: l)
         | Rejected e, _ => Rejected e
         | Fulfilled _, Rejected e => Rejected e
         end, s2)
    end.

Declare Scope eff_scope.
Delimit Scope eff_scope with eff.
Notation "x <- p ;; k" := (then_ p (fun x => k))
  (at level 61, p at next level, right associativity) : eff_scope.
Notation "p ;; k" := (then_ p (fun _ => k))
  (at level 61, right associativity) : eff_scope.
Open Scope eff_scope.

(** Property read that throws on [null] and [undefined]. *)
Definition get {S} (v : Js.Value) (k : string) : Eff S Js.Value :=
  match Js.prop v k with
  | Some x => resolve x
  | None => reject (TypeError "Cannot read properties of null or undefined")
  end.

Definition call (c : Call) : Promise unit :=
  fun w => (Fulfilled tt, with_call c w).

Definition console_log (msg : string) : Promise unit :=
  fun w => (Fulfilled tt, with_log (Log msg) w).

Definition console_error (msg : string) : Promise unit :=
  fun w => (Fulfilled tt, with_log (LogError msg) w).

(** *** Cache API *)

Definition is_get (r : Request) : bool := method r =? "GET".

(** "Request matches cached item" with default query options: only a GET
    query matches, and it matches on the URL. *)
Definition request_matches (query cached : Request) : bool :=
  is_get query && (url cached =? url query).

(** [cache.match(query)] on the contents of one cache. *)
Definition cache_match (c : Cache) (query : Request) : option Response :=
  option_map snd (find (fun e => request_matches query (fst e)) c).

(** [caches.match(query)]: the caches are tried in creation order and the
    first match is the answer. *)
Fixpoint storage_match (s : CacheStorage) (query : Request) : option Response :=
  match s with
  | [] => None
  | (_, c) :: rest =>
      match cache_match c query with
      | Some r => Some r
      | None => storage_match rest query
      end
  end.

Fixpoint storage_lookup (name : string) (s : CacheStorage) : option Cache :=
  match s with
  | [] => None
  | (n, c) :: rest => if n =? name then Some c else storage_lookup name rest
  end.

Fixpoint storage_update (name : string) (f : Cache -> Cache) (s : CacheStorage)
  : CacheStorage :=
  match s with
  | [] => []
  | (n, c) :: rest =>
      if n =? name then (n, f c) :: rest
      else (n, c) :: storage_update name f rest
  end.

Definition has_vary_star (resp : Response) : bool :=
  existsb (fun field => field =? "*") (vary resp).

(** What [cache.put] accepts: a GET request, and a response that is
    neither partial (206) nor varying on [*]. *)
Definition storable (req : Request) (resp : Response) : bool :=
  is_get req && negb (status resp =? 206)%Z && negb (has_vary_star resp).

(** The put operation on the contents: entries matching the request are
    dropped and the new pair is appended. *)
Definition cache_insert (req : Request) (resp : Response) (c : Cache) : Cache :=
  (filter (fun e => negb (request_matches req (fst e))) c ++ [(req, resp)])%list.

(** The puts of one [addAll] batch, in list order. *)
Definition insert_all (entries : list (Request * Response)) (c : Cache) : Cache :=
  fold_left (fun acc e => cache_insert (fst e) (snd e) acc) entries c.

(** [caches.open(name)]: creates the cache when absent; the handle it
    resolves to is the name. *)
Definition caches_open (name : string) : Promise string :=
  call (CachesOpen name) ;;
  fun w =>
    (Fulfilled name,
     match storage_lookup name (storage w) with
     | Some _ => w
     | None => with_storage (storage w ++ [(name, [])])%list w
     end).

Definition cache_put (cache : string) (req : Request) (resp : Response)
  : Promise unit :=
  call (CachePut cache req resp) ;;
  if storable req resp then
    fun w =>
      (Fulfilled tt,
       with_storage (storage_update cache (cache_insert req resp) (storage w)) w)
  else reject (TypeError "Cache.put: unsupported request or response").

Definition caches_match (query : Request) : Promise (option Response) :=
  call (CachesMatch query) ;;
  fun w => (Fulfilled (storage_match (storage w) query), w).

Definition caches_keys : Promise (list string) :=
  call CachesKeys ;;
  fun w => (Fulfilled (map fst (storage w)), w).

Section WithEnv.
Variable env : Env.

(** [caches.delete(name)] *)
Definition caches_delete (name : string) : Promise bool :=
  call (CachesDelete name) ;;
  if storage_fails env name then reject (UnknownError "cache deletion failed")
  else
    fun w =>
      (Fulfilled (existsb (fun e => fst e =? name) (storage w)),
       with_storage (filter (fun e => negb (fst e =? name)) (storage w)) w).

(** [fetch(req)] *)
Definition fetch (req : Request) : Promise Response :=
  call (Fetch req) ;;
  match network env req with
  | Some resp => resolve resp
  | None => reject (TypeError "Failed to fetch")
  end.

(** A URL string of the worker turned into an absolute URL: absolute
    strings stay, [/path] hangs under the origin, anything else under the
    directory of the worker script. *)
Definition resolve_url (u : string) : string :=
  if Js.includes u "://" then u
  else if Js.startsWith u "/" then origin env ++ u
  else base env ++ u.

Definition request_of (u : string) : Request :=
  {| url := resolve_url u; method := "GET" |}.

Definition ok_status (resp : Response) : bool :=
  (200 <=? status resp)%Z && (status resp <=? 299)%Z.

(** One element of [cache.addAll]: fetch it and insist on an ok, complete
    response that does not vary on [*]. *)
Definition fetch_for_cache (u : string) : Promise (Request * Response) :=
  resp <- fetch (request_of u) ;;
  if ok_status resp && negb (status resp =? 206)%Z && negb (has_vary_star resp)
  then resolve (request_of u, resp)
  else reject (TypeError "Cache.addAll: request failed").

(** [cache.addAll(urls)]: every URL is fetched; the cache is written only
    when all of them came back acceptable, and then with all of them. *)
Definition cache_addAll (cache : string) (urls : list string) : Promise unit :=
  call (CacheAddAll cache urls) ;;
  entries <- all (map fetch_for_cache urls) ;;
  fun w =>
    (Fulfilled tt,
     with_storage (storage_update cache (insert_all entries) (storage w)) w).

(** *** Clients and notifications *)

Definition is_window (c : Client) : bool :=
  match client_type c with Window => true | _ => false end.

(** [clients.matchAll({ type: 'window', includeUncontrolled })] *)
Definition clients_matchAll_windows (includeUncontrolled : bool)
  : Promise (list Client) :=
  call ClientsMatchAll ;;
  resolve (filter (fun c => is_window c && (includeUncontrolled || controlled c))
             (clients env)).

End WithEnv.

(** ['focus' in client]: window clients have the method. *)
Definition has_focus (c : Client) : bool := is_window c.

Definition postMessage (c : Client) (message : Js.Value) : Promise unit :=
  call (PostMessage c message).

Definition focus (c : Client) : Promise unit := call (Focus c).

Definition openWindow (u : string) : Promise unit := call (OpenWindow u).

Definition showNotification (title : Js.Value) (options : NotificationOptions)
  : Promise unit :=
  call (ShowNotification title options).

End Host.

(* ================================================================== *)
(** ** The worker *)
(* ================================================================== *)

Import Host.

Definition CACHE_NAME : string := "daily-tracker-v2.1".

Definition FILES_TO_CACHE : list string := [
  "/";
  "index.html";
  "core/core-styles.css";
  "core/core-scripts.js";
  "core/ui.js";
  "trackers/trackers-scripts.js";
  "trackers/trackers-styles.css";
  "workouts/workouts-scripts.js";
  "workouts/workouts-styles.css";
  "habits/habits-scripts.js";
  "habits/habits-styles.css";
  "reminders/reminders-scripts.js";
  "reminders/reminders-styles.css";
  "manifest.json";
  "icons/icon-192.png";
  "icons/icon-512.png";
  "https://fonts.googleapis.com/css2?family=Inter:wght@400;500;600;700&display=swap";
  "https://fonts.googleapis.com/icon?family=Material+Icons+Round"
].

(** *** Events *)

(** [event.data] of a push event; [json = None] when [event.data.json()]
    throws because the payload is not JSON. *)
Record PushMessageData := { text : string; json : option Js.Value }.

(** What became of a fetch event: left to the browser, or answered with
    the given promise ([None] inside it is [undefined]). *)
Inductive FetchOutcome :=
| NotIntercepted
| RespondWith (answer : Settled (option Response)).

(** The [case] of the message switch that ran. *)
Inductive Dispatch :=
| ScheduleReminder
| CancelReminder
| UpdateCache (kept_alive : Settled unit)
| UnknownType.

(** *** Local variables of the push listener *)

Record PushLocals := { title : Js.Value; options : NotificationOptions }.

Definition push_initial : PushLocals :=
  {| title := Js.Str "Daily Tracker";
     options :=
       {| opt_body := Js.Str "Time to check your health reminders!";
          icon := "icons/icon-192.png";
          badge := "icons/icon-192.png";
          tag := Js.Str "reminder-notification";
          requireInteraction := false;
          actions := [ {| action := "open"; action_title := "Open App" |};
                       {| action := "dismiss"; action_title := "Dismiss" |} ];
          data := None |} |}.

Definition read {A} (f : PushLocals -> A) : Eff PushLocals A :=
  fun l => (Fulfilled (f l), l).

Definition set_title (v : Js.Value) : Eff PushLocals unit :=
  fun l => (Fulfilled tt, {| title := v; options := options l |}).

Definition set_options (f : NotificationOptions -> NotificationOptions)
  : Eff PushLocals unit :=
  fun l => (Fulfilled tt, {| title := title l; options := f (options l) |}).

Definition with_body (v : Js.Value) (o : NotificationOptions) :=
  {| opt_body := v; icon := icon o; badge := badge o; tag := tag o;
     requireInteraction := requireInteraction o; actions := actions o;
     data := data o |}.

Definition with_tag (v : Js.Value) (o : NotificationOptions) :=
  {| opt_body := opt_body o; icon := icon o; badge := badge o; tag := v;
     requireInteraction := requireInteraction o; actions := actions o;
     data := data o |}.

Definition with_data (v : Js.Value) (o : NotificationOptions) :=
  {| opt_body := opt_body o; icon := icon o; badge := badge o; tag := tag o;
     requireInteraction := requireInteraction o; actions := actions o;
     data := Some v |}.

Definition event_data_json (d : PushMessageData) : Eff PushLocals Js.Value :=
  match json d with
  | Some v => resolve v
  | None => reject (SyntaxError "Unexpected token in JSON")
  end.

(** The body of the [try] block of the push listener. *)
Definition push_try (d : PushMessageData) : Eff PushLocals unit :=
  data <- event_data_json d ;;
  t <- get data "title" ;;
  title0 <- read title ;;
  set_title (Js.or_else t title0) ;;
  b <- get data "body" ;;
  body0 <- read (fun l => opt_body (options l)) ;;
  set_options (with_body (Js.or_else b body0)) ;;
  g <- get data "tag" ;;
  tag0 <- read (fun l => tag (options l)) ;;
  set_options (with_tag (Js.or_else g tag0)) ;;
  ty <- get data "type" ;;
  if Js.is_str ty "reminder" then
    rid <- get data "reminderId" ;;
    act <- get data "action" ;;
    set_options
      (with_data
         (Js.Obj [ ("type", Js.Str "reminder");
                   ("reminderId", Js.or_else rid Js.Null);
                   ("action", Js.or_else act (Js.Str "open")) ]))
  else resolve tt.

Section Worker.
Variable env : Env.

(** *** [install] *)
Definition on_install : Promise (Settled unit) :=
  console_log "[Service Worker] Install" ;;
  call SkipWaiting ;;
  handed_over
    (catch_
       (cache <- caches_open CACHE_NAME ;;
        console_log "[Service Worker] Caching app shell and content" ;;
        cache_addAll env cache FILES_TO_CACHE)
       (fun error => console_error "[Service Worker] Precaching failed:")).

(** *** [activate]

    [caches.keys()] is called first; [clients.claim()] is called right
    after, synchronously; the deletions run when the key list arrives. *)
Definition remove_if_old (key : string) : Promise (option bool) :=
  if negb (key =? CACHE_NAME) then
    console_log "[Service Worker] Removing old cache" ;;
    deleted <- caches_delete env key ;;
    resolve (Some deleted)
  else resolve None.

Definition on_activate : Promise (Settled (list (option bool))) :=
  console_log "[Service Worker] Activate" ;;
  keyList <- caches_keys ;;
  call ClientsClaim ;;
  handed_over (all (map remove_if_old keyList)).

(** *** [fetch] *)

(** The "valid response" test, as the condition under which the listener
    goes on to cache; a fetched response is an object, never falsy. *)
Definition is_valid (response : Response) : bool :=
  (status response =? 200)%Z &&
  match type response with Basic => true | _ => false end.

Definition from_network (request : Request) : Promise (option Response) :=
  catch_
    (response <- fetch env request ;;
     if negb (is_valid response) then resolve (Some response)
     else
       let responseToCache := response in
       detached (cache <- caches_open CACHE_NAME ;;
                 cache_put cache request responseToCache) ;;
       resolve (Some response))
    (fun error =>
       console_error "[Service Worker] Fetch failed:" ;;
       resolve None).

Definition on_fetch (request : Request) : Promise FetchOutcome :=
  if Js.startsWith (url request) (origin env) then
    answer <- handed_over
      (response <- caches_match request ;;
       match response with
       | Some cached => resolve (Some cached)
       | None => from_network request
       end) ;;
    resolve (RespondWith answer)
  else resolve NotIntercepted.

(** *** [push] *)
Definition on_push (event_data : option PushMessageData)
  : Promise (Settled unit) :=
  console_log "[Service Worker] Push received:" ;;
  locals <-
    match event_data with
    | None => resolve push_initial
    | Some d =>
        match push_try d push_initial with
        | (Fulfilled _, l) => resolve l
        | (Rejected e, l) =>
            console_error "[Service Worker] Error parsing push data:" ;;
            resolve l
        end
    end ;;
  handed_over (showNotification (title locals) (options locals)).

(** *** [notificationclick] *)

(** The [for] loop over the client list: the first client passing the
    test ends the loop. *)
Fixpoint first_matching (clientList : list Client) : option Client :=
  match clientList with
  | [] => None
  | client :: rest =>
      if Js.includes (client_url client) (scope env) && has_focus client
      then Some client
      else first_matching rest
  end.

Definition click_message (reminderId : Js.Value) : Js.Value :=
  Js.Obj [ ("type", Js.Str "notification-click");
           ("action", Js.Str "open-reminders");
           ("reminderId", reminderId) ].

Definition open_or_focus (notificationData : Js.Value) : Promise unit :=
  clientList <- clients_matchAll_windows env true ;;
  match first_matching clientList with
  | Some client =>
      ty <- get notificationData "type" ;;
      (if Js.is_str ty "reminder" then
         rid <- get notificationData "reminderId" ;;
         postMessage client (click_message rid)
       else resolve tt) ;;
      focus client
  | None =>
      ty <- get notificationData "type" ;;
      target <-
        (if Js.is_str ty "reminder" then
           rid <- get notificationData "reminderId" ;;
           resolve ("/" ++ "?open=reminders" ++
                    (if Js.truthy rid then "&reminder=" ++ Js.to_string rid
                     else ""))
         else resolve "/") ;;
      openWindow target
  end.

Definition on_notificationclick (event_action : string)
  (notification_data : Js.Value) : Promise (option (Settled unit)) :=
  console_log "[Service Worker] Notification click:" ;;
  call NotificationClose ;;
  let notificationData := Js.or_else notification_data (Js.Obj []) in
  if event_action =? "dismiss" then resolve None
  else
    kept_alive <- handed_over (open_or_focus notificationData) ;;
    resolve (Some kept_alive).

(** *** [sync] *)
Definition on_sync (event_tag : string) : Promise (option (Settled unit)) :=
  console_log "[Service Worker] Background sync:" ;;
  if event_tag =? "reminder-sync" then
    kept_alive <- handed_over (resolve tt) ;;
    resolve (Some kept_alive)
  else resolve None.

(** *** [message] *)
Definition on_message (event_data : Js.Value) : Promise Dispatch :=
  console_log "[Service Worker] Message received:" ;;
  type <- get event_data "type" ;;
  data <- get event_data "data" ;;
  if Js.is_str type "schedule-reminder" then
    console_log "[Service Worker] Reminder scheduling requested:" ;;
    resolve ScheduleReminder
  else if Js.is_str type "cancel-reminder" then
    console_log "[Service Worker] Reminder cancellation requested:" ;;
    resolve CancelReminder
  else if Js.is_str type "update-cache" then
    kept_alive <- handed_over
      (cache <- caches_open CACHE_NAME ;;
       cache_addAll env cache FILES_TO_CACHE) ;;
    resolve (UpdateCache kept_alive)
  else
    console_log "[Service Worker] Unknown message type:" ;;
    resolve UnknownType.

(** *** [notificationclose] *)
Definition on_notificationclose (notification_data : Js.Value) : Promise unit :=
  console_log "[Service Worker] Notification closed:" ;;
  let notificationData := Js.or_else notification_data (Js.Obj []) in
  ty <- get notificationData "type" ;;
  if Js.is_str ty "reminder" then
    console_log "[Service Worker] Reminder notification dismissed"
  else resolve tt.

End Worker.

(* ================================================================== *)
(** ** Vocabulary of the properties *)
(* ================================================================== *)

(** *** Cache storage *)

(** The current store holds [cached] as its answer to [request]. *)
Definition answered_by_current (w : World) (request : Request)
  (cached : Response) : Prop :=
  exists c, In (CACHE_NAME, c) (storage w) /\
            cache_match c request = Some cached.

(** What C2 promises of a fetched 200 basic response: the current store
    holds it under the request. *)
Definition stored_under (w : World) (request : Request) (response : Response)
  : Prop :=
  exists c, storage_lookup CACHE_NAME (storage w) = Some c /\
            In (request, response) c.

(** Cache storage once [caches.open(name)] has run. *)
Definition opened (name : string) (s : CacheStorage) : CacheStorage :=
  match storage_lookup name s with
  | Some _ => s
  | None => (s ++ [(name, [])])%list
  end.

(** Whether some key of [ks] names the store [e], is old, and can be
    deleted. *)
Definition deleted_by (env : Env) (ks : list string) (e : string * Cache) : bool :=
  existsb (fun k => (k =? fst e) && negb (k =? CACHE_NAME)
                    && negb (storage_fails env k)) ks.

Definition old_keys (ks : list string) : list string :=
  filter (fun k => negb (k =? CACHE_NAME)) ks.

(** What one asset URL contributes to [addAll]: its request and response
    when the fetch comes back acceptable, nothing otherwise. *)
Definition acceptable (env : Env) (u : string) : option (Request * Response) :=
  match network env (request_of env u) with
  | Some resp =>
      if ok_status resp && negb (status resp =? 206)%Z && negb (has_vary_star resp)
      then Some (request_of env u, resp)
      else None
  | None => None
  end.

Definition fetch_calls (env : Env) (urls : list string) : list Call :=
  map (fun u => Fetch (request_of env u)) urls.

(** What C6 promises after a failed population: every asset whose own
    fetch succeeded is in the current store. *)
Definition holds_succeeded (env : Env) (w : World) : Prop :=
  forall u e, In u FILES_TO_CACHE -> acceptable env u = Some e ->
    exists c, storage_lookup CACHE_NAME (storage w) = Some c /\
              cache_match c (fst e) = Some (snd e).

(** *** Console lines and messages *)

Definition precaching_failed : LogLine :=
  LogError "[Service Worker] Precaching failed:".

Definition parse_error_logged : LogLine :=
  LogError "[Service Worker] Error parsing push data:".

Definition received : LogLine := Log "[Service Worker] Message received:".

Definition update_cache_message : Js.Value :=
  Js.Obj [("type", Js.Str "update-cache")].

(** [typeof v === 'object' && v !== null]: arrays count, primitives do
    not. *)
Definition is_object (v : Js.Value) : bool :=
  match v with
  | Js.Obj _ | Js.Arr _ => true
  | _ => false
  end.

(** The listener ran to the end of its switch. *)
Definition dispatches (env : Env) (w : World) (message : Js.Value) : Prop :=
  exists branch, fst (on_message env message w) = Fulfilled branch.

(** [url] falls under the registration scope. *)
Definition under_scope (env : Env) (u : string) : bool :=
  Js.startsWith u (scope env).

(** *** Notification data and clicks *)

(** [v.k] of a value that is neither [null] nor [undefined]. *)
Definition field (v : Js.Value) (k : string) : Js.Value :=
  match Js.prop v k with
  | Some x => x
  | None => Js.Undefined
  end.

(** [notificationData.type === 'reminder'] *)
Definition is_reminder (notificationData : Js.Value) : bool :=
  Js.is_str (field notificationData "type") "reminder".


(** The test of the loop over the client list. *)
Definition passes (env : Env) (client : Client) : bool :=
  Js.includes (client_url client) (scope env) && has_focus client.



(** *** Push payloads *)

Definition pushed : LogLine := Log "[Service Worker] Push received:".



Definition nullish (v : Js.Value) : bool :=
  match v with
  | Js.Undefined | Js.Null => true
  | _ => false
  end.


(** *** Messages *)

(** The branch of the switch for a value of [type] other than
    ['update-cache']. *)
Definition stub_branch (ty : Js.Value) : Dispatch :=
  if Js.is_str ty "schedule-reminder" then ScheduleReminder
  else if Js.is_str ty "cancel-reminder" then CancelReminder
  else UnknownType.

Definition stub_line (ty : Js.Value) : LogLine :=
  if Js.is_str ty "schedule-reminder"
  then Log "[Service Worker] Reminder scheduling requested:"
  else if Js.is_str ty "cancel-reminder"
  then Log "[Service Worker] Reminder cancellation requested:"
  else Log "[Service Worker] Unknown message type:".

(** *** A concrete deployment, for examples *)

Module Fixture.

Definition ok_response (t : ResponseType) (content : string) : Response :=
  {| status := 200; type := t; vary := []; body := content |}.

Definition gone_url : string := "https://tracker.example/core/gone.js".

(** A network on which [missing] is unreachable, [gone_url] answers 404
    and every other URL answers 200. *)
Definition network_without (missing : string) (req : Request) : option Response :=
  if url req =? missing then None
  else if url req =? gone_url
       then Some {| status := 404; type := Basic; vary := []; body := "" |}
  else if Js.startsWith (url req) "https://tracker.example/"
       then Some (ok_response Basic (url req))
       else Some (ok_response Cors (url req)).

Definition tracker (net : Request -> option Response) : Env :=
  {| origin := "https://tracker.example";
     scope := "https://tracker.example/core/";
     base := "https://tracker.example/core/";
     network := net;
     storage_fails := fun _ => false;
     clients := [] |}.

Definition online : Env := tracker (network_without "").

Definition icon_unreachable : Env :=
  tracker (network_without "https://tracker.example/core/icons/icon-512.png").

Definition fresh : World := {| storage := []; console := []; calls := [] |}.

Definition stored (s : CacheStorage) : World :=
  {| storage := s; console := []; calls := [] |}.

Definition get_ (u : string) : Request := {| url := u; method := "GET" |}.

Definition ui_script : Request := get_ "https://tracker.example/core/ui.js".

Definition gone : Request := get_ gone_url.

Definition ui_response : Response := ok_response Basic (url ui_script).

(** The current store holding one script. *)
Definition warm : World :=
  stored [(CACHE_NAME, [(ui_script, ok_response Basic "ui")])].

End Fixture.

(* ================================================================== *)
(** ** Properties *)
(* ================================================================== *)

(** *** Strings and URLs *)

Lemma prefix_cut_at_slash n u : String.prefix (Url.cut_at_slash n u) u = true.
Proof.
  revert n; induction u as [|c u IH]; intros n; simpl; [reflexivity|].
  destruct (Ascii.eqb c "/") eqn:E.
  - destruct n; simpl; [reflexivity|].
    destruct (ascii_dec c c); [apply IH | congruence].
  - simpl. destruct (ascii_dec c c); [apply IH | congruence].
Qed.

(** A URL starts with its own origin, so a same-origin request passes the
    listener's prefix test. *)
Lemma same_origin_startsWith env request :
  Url.origin_of (url request) = origin env ->
  Js.startsWith (url request) (origin env) = true.
Proof.
  intros <-. apply prefix_cut_at_slash.
Qed.

(** *** Cache lookup *)

(** [caches.match] answers from the first store, in creation order, that
    holds a match. *)
Lemma storage_match_first s query cached :
  storage_match s query = Some cached ->
  exists before name c after,
    s = (before ++ (name, c) :: after)%list /\
    Forall (fun e => cache_match (snd e) query = None) before /\
    cache_match c query = Some cached.
Proof.
  induction s as [|[n c] s IH]; simpl; [discriminate|].
  destruct (cache_match c query) as [r|] eqn:E.
  - intros [= <-]. exists [], n, c, s. repeat split; [constructor | exact E].
  - intros H. destruct (IH H) as (before & name & c' & after & -> & Hb & Hc).
    exists ((n, c) :: before), name, c', after.
    repeat split; [constructor; [exact E | exact Hb] | exact Hc].
Qed.

(** *** The fetch listener *)

(** A hit: the listener answers with what [caches.match] found and makes
    no other host call. *)
Lemma on_fetch_hit env w request cached :
  Js.startsWith (url request) (origin env) = true ->
  storage_match (storage w) request = Some cached ->
  on_fetch env request w =
    (Fulfilled (RespondWith (Fulfilled (Some cached))),
     with_call (CachesMatch request) w).
Proof.
  intros Hp Hm. unfold on_fetch. rewrite Hp.
  unfold then_, handed_over, caches_match, call, resolve. simpl.
  rewrite Hm. reflexivity.
Qed.

(** C1.  For a same-origin request with a cached entry the fetch listener
    answers with the cached response itself; the only host call it makes
    is the cache lookup, so no network fetch is issued, and the cache
    storage and console are left as they were. *)
Theorem fetch_hit_serves_cache env w request cached :
  Url.origin_of (url request) = origin env ->
  storage_match (storage w) request = Some cached ->
  let w' := snd (on_fetch env request w) in
  fst (on_fetch env request w) =
    Fulfilled (RespondWith (Fulfilled (Some cached))) /\
  calls w' = (calls w ++ [CachesMatch request])%list /\
  (forall req, ~ In (Fetch req) (calls w) -> ~ In (Fetch req) (calls w')) /\
  storage w' = storage w /\
  console w' = console w.
Proof.
  intros Ho Hm.
  rewrite (on_fetch_hit env w request cached (same_origin_startsWith _ _ Ho) Hm).
  repeat split.
  intros req Hn Hin. simpl in Hin. apply in_app_or in Hin.
  destruct Hin as [Hin | [Hin | []]]; [auto | discriminate].
Qed.

Lemma fetch_hit_serves_cache_witness :
  let w := Fixture.warm in
  let w' := snd (on_fetch Fixture.online Fixture.ui_script w) in
  fst (on_fetch Fixture.online Fixture.ui_script w) =
    Fulfilled (RespondWith (Fulfilled (Some (Fixture.ok_response Basic "ui")))) /\
  calls w' = (calls w ++ [CachesMatch Fixture.ui_script])%list /\
  (forall req, ~ In (Fetch req) (calls w) -> ~ In (Fetch req) (calls w')) /\
  storage w' = storage w /\
  console w' = console w.
Proof.
  apply (fetch_hit_serves_cache Fixture.online Fixture.warm Fixture.ui_script
           (Fixture.ok_response Basic "ui")); reflexivity.
Defined.

(** *** Writing a fetched response into the current store *)

Lemma storage_lookup_update name f s :
  storage_lookup name (storage_update name f s) =
  option_map f (storage_lookup name s).
Proof.
  induction s as [|[n c] s IH]; simpl; [reflexivity|].
  destruct (n =? name) eqn:E; simpl; rewrite E; [reflexivity | exact IH].
Qed.

Lemma storage_lookup_update_other name other f s :
  other <> name ->
  storage_lookup other (storage_update name f s) = storage_lookup other s.
Proof.
  intros Hne. induction s as [|[n c] s IH]; simpl; [reflexivity|].
  destruct (n =? name) eqn:E; simpl.
  - apply String.eqb_eq in E. subst n.
    destruct (name =? other) eqn:E'; [|reflexivity].
    apply String.eqb_eq in E'. congruence.
  - destruct (n =? other); [reflexivity | exact IH].
Qed.

Lemma storage_lookup_app name s t :
  storage_lookup name (s ++ t)%list =
  match storage_lookup name s with
  | Some c => Some c
  | None => storage_lookup name t
  end.
Proof.
  induction s as [|[n c] s IH]; simpl; [reflexivity|].
  destruct (n =? name); [reflexivity | exact IH].
Qed.

(** After [caches.open(name)] the store exists, with the contents it had
    or empty; the other stores are untouched. *)
Lemma caches_open_spec name w :
  let w' := snd (caches_open name w) in
  fst (caches_open name w) = Fulfilled name /\
  storage_lookup name (storage w') =
    Some (match storage_lookup name (storage w) with
          | Some c => c
          | None => []
          end) /\
  (forall other, other <> name ->
     storage_lookup other (storage w') = storage_lookup other (storage w)) /\
  console w' = console w /\
  calls w' = (calls w ++ [CachesOpen name])%list.
Proof.
  unfold caches_open, then_, call. simpl.
  destruct (storage_lookup name (storage w)) eqn:E; simpl.
  - repeat split; auto.
  - repeat split; auto.
    + rewrite storage_lookup_app, E. simpl. rewrite String.eqb_refl. reflexivity.
    + intros other Hne. rewrite storage_lookup_app. simpl.
      destruct (storage_lookup other (storage w)); [reflexivity|].
      destruct (name =? other) eqn:E'; [|reflexivity].
      apply String.eqb_eq in E'. congruence.
Qed.

Lemma find_after_purge {A} (p : A -> bool) (l : list A) (x : A) :
  p x = true ->
  find p (filter (fun e => negb (p e)) l ++ [x])%list = Some x.
Proof.
  intros Hx. induction l as [|a l IH]; simpl.
  - rewrite Hx. reflexivity.
  - destruct (p a) eqn:E; simpl; [exact IH|]. rewrite E. exact IH.
Qed.

(** A GET request finds what was just put under it. *)
Lemma cache_match_insert req resp c :
  is_get req = true ->
  cache_match (cache_insert req resp c) req = Some resp.
Proof.
  intros Hg. unfold cache_match, cache_insert.
  rewrite (find_after_purge (fun e => request_matches req (fst e)) c (req, resp)).
  - reflexivity.
  - unfold request_matches. simpl. rewrite Hg, String.eqb_refl. reflexivity.
Qed.

Lemma is_valid_iff response :
  is_valid response = true <-> status response = 200%Z /\ type response = Basic.
Proof.
  unfold is_valid. rewrite andb_true_iff, Z.eqb_eq.
  destruct (type response); intuition congruence.
Qed.

Lemma on_fetch_miss env w request response :
  Js.startsWith (url request) (origin env) = true ->
  storage_match (storage w) request = None ->
  network env request = Some response ->
  on_fetch env request w =
    (Fulfilled (RespondWith (Fulfilled (Some response))),
     let w2 := with_call (Fetch request) (with_call (CachesMatch request) w) in
     if is_valid response
     then snd ((cache <- caches_open CACHE_NAME ;;
                cache_put cache request response) w2)
     else w2).
Proof.
  intros Hp Hm Hn. unfold on_fetch. rewrite Hp.
  cbv [then_ handed_over caches_match call resolve from_network catch_ fetch detached].
  cbn [storage with_call fst snd].
  rewrite Hm, Hn. cbn [fst snd].
  destruct (is_valid response); cbn [negb fst snd]; reflexivity.
Qed.

Lemma storable_valid request response :
  is_valid response = true ->
  storable request response = is_get request && negb (has_vary_star response).
Proof.
  intros Hv. apply is_valid_iff in Hv. destruct Hv as [Hs _].
  unfold storable. rewrite Hs. simpl. rewrite andb_true_r. reflexivity.
Qed.

(** Opening the store and putting a storable pair leaves the pair
    retrievable there and the other stores as they were. *)
Lemma open_put_spec name request response w :
  storable request response = true ->
  let w' := snd ((cache <- caches_open name ;; cache_put cache request response) w) in
  (exists c, storage_lookup name (storage w') = Some c /\
             cache_match c request = Some response) /\
  (forall other, other <> name ->
     storage_lookup other (storage w') = storage_lookup other (storage w)).
Proof.
  intros Hs.
  destruct (caches_open_spec name w) as (Hr & Hl & Ho & _).
  unfold then_ at 1. destruct (caches_open name w) as [r w1]. simpl in Hr, Hl, Ho.
  subst r. unfold cache_put, then_, call. rewrite Hs. simpl. split.
  - rewrite storage_lookup_update, Hl. simpl. eexists; split; [reflexivity|].
    apply cache_match_insert. unfold storable in Hs.
    apply andb_true_iff in Hs. destruct Hs as [Hs _].
    apply andb_true_iff in Hs. tauto.
  - intros other Hne. rewrite storage_lookup_update_other by assumption. auto.
Qed.

Lemma open_put_calls name request response w :
  calls (snd ((cache <- caches_open name ;; cache_put cache request response) w))
  = (calls w ++ [CachesOpen name; CachePut name request response])%list.
Proof.
  cbv [then_ caches_open call cache_put reject]. cbn [fst snd storage with_call].
  destruct (storable request response), (storage_lookup name (storage w));
    cbn [calls with_call with_storage fst snd];
    repeat rewrite <- app_assoc; reflexivity.
Qed.

(** A rejected put changes no store's contents: at most the empty
    current store has been created by [caches.open]. *)
Lemma open_put_rejected name request response w :
  storable request response = false ->
  let w' := snd ((cache <- caches_open name ;; cache_put cache request response) w) in
  storage_lookup name (storage w') =
    Some (match storage_lookup name (storage w) with Some c => c | None => [] end).
Proof.
  intros Hs.
  destruct (caches_open_spec name w) as (Hr & Hl & Ho & _).
  unfold then_ at 1. destruct (caches_open name w) as [r w1]. simpl in Hr, Hl, Ho.
  subst r. unfold cache_put, then_, call. rewrite Hs. simpl. exact Hl.
Qed.

(** C2, as the code has it.  For a same-origin request with no cached
    entry whose network fetch succeeds, the fetched response is what the
    listener answers with.  When its status is 200 and its type basic,
    and the request is a GET and the response does not vary on [*] (what
    [cache.put] accepts), the current store, once the put that the
    listener started has settled, holds the response under the request
    and the other stores are as before.  When the status is not 200 or
    the type not basic, cache storage is unchanged and the only host
    calls are the lookup and the fetch. *)
Theorem fetch_miss_stores_valid_get env w request response :
  Url.origin_of (url request) = origin env ->
  storage_match (storage w) request = None ->
  network env request = Some response ->
  let w' := snd (on_fetch env request w) in
  fst (on_fetch env request w) =
    Fulfilled (RespondWith (Fulfilled (Some response))) /\
  (status response = 200%Z -> type response = Basic ->
   is_get request = true -> has_vary_star response = false ->
     (exists c, storage_lookup CACHE_NAME (storage w') = Some c /\
                cache_match c request = Some response) /\
     (forall other, other <> CACHE_NAME ->
        storage_lookup other (storage w') = storage_lookup other (storage w))) /\
  (status response <> 200%Z \/ type response <> Basic ->
     storage w' = storage w /\
     calls w' = (calls w ++ [CachesMatch request; Fetch request])%list).
Proof.
  intros Ho Hm Hn.
  rewrite (on_fetch_miss env w request response (same_origin_startsWith _ _ Ho) Hm Hn).
  split; [reflexivity|]. split.
  - intros Hs Ht Hg Hv.
    assert (V : is_valid response = true) by (apply is_valid_iff; auto).
    rewrite V.
    assert (St : storable request response = true)
      by (rewrite (storable_valid _ _ V), Hg, Hv; reflexivity).
    exact (open_put_spec CACHE_NAME request response
             (with_call (Fetch request) (with_call (CachesMatch request) w)) St).
  - intros Hbad.
    assert (V : is_valid response = false).
    { destruct (is_valid response) eqn:V; [|reflexivity].
      apply is_valid_iff in V. tauto. }
    rewrite V. simpl. rewrite <- app_assoc. auto.
Qed.

Lemma fetch_miss_stores_valid_get_witness :
  (exists c,
     storage_lookup CACHE_NAME
       (storage (snd (on_fetch Fixture.online Fixture.ui_script Fixture.fresh)))
       = Some c /\
     cache_match c Fixture.ui_script = Some Fixture.ui_response) /\
  storage (snd (on_fetch Fixture.online Fixture.gone Fixture.fresh)) = [].
Proof.
  split.
  - destruct (fetch_miss_stores_valid_get Fixture.online Fixture.fresh
                Fixture.ui_script Fixture.ui_response eq_refl eq_refl eq_refl)
      as (_ & H & _).
    apply H; reflexivity.
  - destruct (fetch_miss_stores_valid_get Fixture.online Fixture.fresh
                Fixture.gone {| status := 404; type := Basic; vary := []; body := "" |}
                eq_refl eq_refl eq_refl)
      as (_ & _ & H).
    apply H. left. discriminate.
Defined.

(** C2 as stated fails for a request that is not a GET: a same-origin POST
    with no cached entry gets a 200 basic response, the listener answers
    with it, and [cache.put] rejects, so the current store stays empty. *)
Lemma fetch_miss_post_not_stored :
  let request :=
    {| url := "https://tracker.example/api/entries"; method := "POST" |} in
  let response := Fixture.ok_response Basic (url request) in
  let r := on_fetch Fixture.online request Fixture.fresh in
  Url.origin_of (url request) = origin Fixture.online /\
  storage_match (storage Fixture.fresh) request = None /\
  network Fixture.online request = Some response /\
  status response = 200%Z /\ type response = Basic /\
  fst r = Fulfilled (RespondWith (Fulfilled (Some response))) /\
  ~ stored_under (snd r) request response.
Proof.
  repeat split.
  intros (c & Hc & Hin). vm_compute in Hc. injection Hc as <-. destruct Hin.
Qed.

(** When the network fails on a miss the failure is logged and the
    listener answers with [undefined]. *)
Lemma on_fetch_miss_offline env w request :
  Js.startsWith (url request) (origin env) = true ->
  storage_match (storage w) request = None ->
  network env request = None ->
  on_fetch env request w =
    (Fulfilled (RespondWith (Fulfilled None)),
     with_log (LogError "[Service Worker] Fetch failed:")
       (with_call (Fetch request) (with_call (CachesMatch request) w))).
Proof.
  intros Hp Hm Hn. unfold on_fetch. rewrite Hp.
  cbv [then_ handed_over caches_match call resolve reject from_network catch_
       fetch console_error].
  cbn [storage with_call fst snd].
  rewrite Hm, Hn. reflexivity.
Qed.

(** A request whose URL does not begin with the worker's origin string is
    left alone: no host call, no response. *)
Lemma on_fetch_unprefixed env w request :
  Js.startsWith (url request) (origin env) = false ->
  on_fetch env request w = (Fulfilled NotIntercepted, w).
Proof.
  intros Hp. unfold on_fetch. rewrite Hp. reflexivity.
Qed.

(** C3, the failing input.  The worker of [https://tracker.example]
    receives a request for [https://tracker.example:8443/...]: another
    origin, whose URL nevertheless begins with the worker's origin
    string.  The listener reads the caches, fetches and responds. *)
Example fetch_intercepts_other_port :
  let request := Fixture.get_ "https://tracker.example:8443/api/entries" in
  Url.origin_of (url request) <> origin Fixture.online /\
  on_fetch Fixture.online request Fixture.fresh =
    (Fulfilled (RespondWith
       (Fulfilled (Some (Fixture.ok_response Cors (url request))))),
     {| storage := []; console := [];
        calls := [CachesMatch request; Fetch request] |}).
Proof.
  split; [discriminate | reflexivity].
Qed.

(** *** Which store answers a hit *)

(** C4 as stated fails while another store is around (an older version
    whose deletion failed, or a store a page created): [caches.match]
    goes through every store, and the entry of the other store is served
    although the current store has none for the request. *)
Lemma fetch_hit_from_old_store :
  let old := Fixture.ok_response Basic "ui of v2.0" in
  let w := Fixture.stored [ ("daily-tracker-v2.0", [(Fixture.ui_script, old)]);
                            (CACHE_NAME, []) ] in
  Url.origin_of (url Fixture.ui_script) = origin Fixture.online /\
  fst (on_fetch Fixture.online Fixture.ui_script w) =
    Fulfilled (RespondWith (Fulfilled (Some old))) /\
  calls (snd (on_fetch Fixture.online Fixture.ui_script w)) =
    [CachesMatch Fixture.ui_script] /\
  ~ answered_by_current w Fixture.ui_script old.
Proof.
  repeat split.
  intros (c & [Hin | [Hin | []]] & Hc).
  - discriminate.
  - injection Hin as <-. discriminate.
Qed.

(** C4, as the code has it.  On an intercepted request the hit-or-miss
    lookup is [caches.match] over every store in creation order.  On a
    hit the response served is the one of the first store holding a
    match; it is the current store's whenever no store of another name
    holds a match.  On a miss, and only then, the network is asked. *)
Theorem fetch_lookup_spans_stores env w request :
  Js.startsWith (url request) (origin env) = true ->
  let r := on_fetch env request w in
  (forall cached, storage_match (storage w) request = Some cached ->
     fst r = Fulfilled (RespondWith (Fulfilled (Some cached))) /\
     calls (snd r) = (calls w ++ [CachesMatch request])%list /\
     (exists before name c after,
        storage w = (before ++ (name, c) :: after)%list /\
        Forall (fun e => cache_match (snd e) request = None) before /\
        cache_match c request = Some cached) /\
     ((forall name c, In (name, c) (storage w) -> name <> CACHE_NAME ->
         cache_match c request = None) ->
      answered_by_current w request cached)) /\
  (storage_match (storage w) request = None ->
     exists later,
       calls (snd r) =
         (calls w ++ [CachesMatch request; Fetch request] ++ later)%list).
Proof.
  intros Hp r. subst r. split.
  - intros cached Hm. rewrite (on_fetch_hit env w request cached Hp Hm).
    split; [reflexivity|]. split; [reflexivity|].
    destruct (storage_match_first _ _ _ Hm)
      as (before & name & c & after & Hs & Hb & Hc).
    split; [exists before, name, c, after; auto|].
    intros Hothers. exists c. split; [|exact Hc].
    destruct (String.eqb_spec name CACHE_NAME) as [-> | Hne].
    + rewrite Hs. apply in_or_app. right. left. reflexivity.
    + exfalso. assert (Hin : In (name, c) (storage w))
        by (rewrite Hs; apply in_or_app; right; left; reflexivity).
      rewrite (Hothers name c Hin Hne) in Hc. discriminate.
  - intros Hm. destruct (network env request) as [response|] eqn:Hn.
    + rewrite (on_fetch_miss env w request response Hp Hm Hn).
      cbn [snd]. destruct (is_valid response).
      * exists [CachesOpen CACHE_NAME; CachePut CACHE_NAME request response].
        rewrite open_put_calls. cbn [calls with_call].
        repeat rewrite <- app_assoc. reflexivity.
      * exists []. cbn [calls with_call].
        repeat rewrite <- app_assoc. reflexivity.
    + rewrite (on_fetch_miss_offline env w request Hp Hm Hn).
      exists []. cbn [snd calls with_log with_call].
      repeat rewrite <- app_assoc. reflexivity.
Qed.

Lemma fetch_lookup_spans_stores_witness :
  answered_by_current Fixture.warm Fixture.ui_script
    (Fixture.ok_response Basic "ui") /\
  exists later,
    calls (snd (on_fetch Fixture.online Fixture.ui_script Fixture.fresh)) =
    ([CachesMatch Fixture.ui_script; Fetch Fixture.ui_script] ++ later)%list.
Proof.
  split.
  - destruct (fetch_lookup_spans_stores Fixture.online Fixture.warm
                Fixture.ui_script eq_refl) as (Hhit & _).
    destruct (Hhit (Fixture.ok_response Basic "ui") eq_refl) as (_ & _ & _ & H).
    apply H. intros name c [Hin | []] Hne. congruence.
  - destruct (fetch_lookup_spans_stores Fixture.online Fixture.fresh
                Fixture.ui_script eq_refl) as (_ & Hmiss).
    exact (Hmiss eq_refl).
Defined.

(** *** The activate listener *)

Section Activate.
Variable env : Env.

(** One callback of [keyList.map]. *)
Lemma remove_if_old_spec k w :
  let w' := snd (remove_if_old env k w) in
  storage w' = filter (fun e => negb (deleted_by env [k] e)) (storage w) /\
  calls w' = (calls w ++ map CachesDelete (old_keys [k]))%list.
Proof.
  assert (Hid : forall (s : CacheStorage), s = filter (fun _ => true) s).
  { intros s. induction s as [|e s IHs]; simpl; congruence. }
  unfold remove_if_old, old_keys, deleted_by. cbn [filter existsb].
  destruct (negb (k =? CACHE_NAME)) eqn:Ek.
  - cbv [then_ console_log caches_delete call reject resolve].
    destruct (storage_fails env k) eqn:Ef;
      cbn [fst snd storage calls with_storage with_call with_log map]; split;
      try reflexivity.
    + rewrite (Hid (storage w)) at 1. apply filter_ext. intros e.
      rewrite !andb_false_r. reflexivity.
    + apply filter_ext. intros e.
      rewrite !andb_true_r, orb_false_r, (String.eqb_sym k (fst e)).
      reflexivity.
  - cbv [resolve]. cbn [snd map]. split; [|rewrite app_nil_r; reflexivity].
    rewrite (Hid (storage w)) at 1. apply filter_ext. intros e.
    rewrite andb_false_r. reflexivity.
Qed.

Lemma all_cons_world {S A} (p : Eff S A) (ps : list (Eff S A)) (s : S) :
  snd (all (p :: ps) s) = snd (all ps (snd (p s))).
Proof.
  cbn [all]. destruct (p s) as [r s1]. cbn [snd].
  destruct (all ps s1) as [rs s2]. reflexivity.
Qed.

Lemma filter_filter {A} (f g : A -> bool) (l : list A) :
  filter f (filter g l) = filter (fun x => g x && f x) l.
Proof.
  induction l as [|a l IH]; simpl; [reflexivity|].
  destruct (g a); simpl; [destruct (f a)|]; congruence.
Qed.

(** The deletions started by [keyList.map]: each old key gets its call,
    and each store whose own deletion succeeds goes, independently of how
    the other deletions end. *)
Lemma remove_all_spec ks w :
  let w' := snd (all (map (remove_if_old env) ks) w) in
  storage w' = filter (fun e => negb (deleted_by env ks e)) (storage w) /\
  calls w' = (calls w ++ map CachesDelete (old_keys ks))%list.
Proof.
  revert w. induction ks as [|k ks IH]; intros w.
  - simpl. split; [|rewrite app_nil_r; reflexivity].
    induction (storage w) as [|e s IHs]; simpl; congruence.
  - intro w'. subst w'. cbn [map]. unfold Promise.
    rewrite !all_cons_world. fold (Promise (option bool)).
    destruct (IH (snd (remove_if_old env k w))) as [IHs IHc].
    destruct (remove_if_old_spec k w) as [Hs Hc].
    rewrite IHs, IHc, Hs, Hc. split.
    + rewrite filter_filter. apply filter_ext. intros e.
      unfold deleted_by. cbn [existsb]. rewrite orb_false_r, negb_orb.
      reflexivity.
    + rewrite <- app_assoc, <- map_app. unfold old_keys. cbn [filter].
      destruct (negb (k =? CACHE_NAME)); reflexivity.
Qed.

End Activate.

Lemma deleted_by_own_key env s e :
  In e s ->
  deleted_by env (map fst s) e =
  negb (fst e =? CACHE_NAME) && negb (storage_fails env (fst e)).
Proof.
  intros Hin. unfold deleted_by. apply eq_true_iff_eq.
  rewrite existsb_exists. split.
  - intros (k & _ & Hk). apply andb_true_iff in Hk. destruct Hk as [Hk Hf].
    apply andb_true_iff in Hk. destruct Hk as [Hk Hc].
    apply String.eqb_eq in Hk. subst k. rewrite Hc, Hf. reflexivity.
  - intros H. exists (fst e). split; [apply in_map, Hin|].
    rewrite String.eqb_refl. exact H.
Qed.

Lemma on_activate_world env w :
  snd (on_activate env w) =
  snd (all (map (remove_if_old env) (map fst (storage w)))
         (with_call ClientsClaim
            (with_call CachesKeys
               (with_log (Log "[Service Worker] Activate") w)))).
Proof.
  reflexivity.
Qed.

(** C5.  The activate listener starts one deletion per store whose name
    is not the current version string, each in its own call.  What is
    left afterwards is the current store together with the stores whose
    own deletion failed, so a deletion that succeeds takes effect whatever
    becomes of the others; when every attempted deletion succeeds, no
    store with another name than the current one exists. *)
Theorem activate_leaves_current_only env w :
  let w' := snd (on_activate env w) in
  calls w' =
    (calls w ++ [CachesKeys; ClientsClaim]
       ++ map CachesDelete (old_keys (map fst (storage w))))%list /\
  storage w' =
    filter (fun e => (fst e =? CACHE_NAME) || storage_fails env (fst e))
      (storage w) /\
  ((forall name, In name (map fst (storage w)) -> name <> CACHE_NAME ->
      storage_fails env name = false) ->
   forall name, In name (map fst (storage w')) -> name = CACHE_NAME).
Proof.
  intro w'. subst w'. rewrite on_activate_world.
  destruct (remove_all_spec env (map fst (storage w))
              (with_call ClientsClaim
                 (with_call CachesKeys
                    (with_log (Log "[Service Worker] Activate") w))))
    as [Hs Hc].
  cbn [storage calls with_call with_log] in Hs, Hc.
  assert (Hkept : storage
            (snd (all (map (remove_if_old env) (map fst (storage w)))
                    (with_call ClientsClaim
                       (with_call CachesKeys
                          (with_log (Log "[Service Worker] Activate") w))))) =
          filter (fun e => (fst e =? CACHE_NAME) || storage_fails env (fst e))
            (storage w)).
  { rewrite Hs. apply filter_ext_in. intros e Hin.
    rewrite (deleted_by_own_key env _ e Hin).
    destruct (fst e =? CACHE_NAME), (storage_fails env (fst e)); reflexivity. }
  split; [|split].
  - rewrite Hc, <- !app_assoc. reflexivity.
  - exact Hkept.
  - intros Hok name Hin. rewrite Hkept in Hin.
    apply in_map_iff in Hin. destruct Hin as (e & <- & Hin).
    apply filter_In in Hin. destruct Hin as [Hin Hkeep].
    destruct (String.eqb_spec (fst e) CACHE_NAME) as [Heq | Hne]; [exact Heq|].
    simpl in Hkeep.
    rewrite (Hok (fst e) (in_map fst _ _ Hin) Hne) in Hkeep. discriminate.
Qed.

Lemma activate_leaves_current_only_witness :
  let w := Fixture.stored [ ("daily-tracker-v1.9", []);
                            ("daily-tracker-v2.0", [(Fixture.ui_script,
                                                     Fixture.ui_response)]);
                            (CACHE_NAME, []) ] in
  Forall (fun name => name = CACHE_NAME)
    (map fst (storage (snd (on_activate Fixture.online w)))).
Proof.
  intro w. apply Forall_forall.
  destruct (activate_leaves_current_only Fixture.online w) as (_ & _ & H).
  apply H. intros name _ _. reflexivity.
Defined.

(** *** Precaching with [cache.addAll] *)

Section AddAll.
Variable env : Env.

Lemma fetch_for_cache_spec u w :
  snd (fetch_for_cache env u w) = with_call (Fetch (request_of env u)) w /\
  match acceptable env u with
  | Some e => fst (fetch_for_cache env u w) = Fulfilled e
  | None => exists err, fst (fetch_for_cache env u w) = Rejected err
  end.
Proof.
  unfold acceptable. cbv [fetch_for_cache fetch then_ call resolve reject].
  destruct (network env (request_of env u)) as [resp|]; cbn [fst snd].
  - destruct (ok_status resp && negb (status resp =? 206)%Z
              && negb (has_vary_star resp)); cbn [fst snd]; split; eauto.
  - split; eauto.
Qed.

(** The fetches of [addAll] touch neither storage nor console; they
    fulfil with all the pairs when every URL is acceptable env and reject as
    soon as one is not. *)
Lemma fetch_all_spec urls w :
  let r := all (map (fetch_for_cache env) urls) w in
  storage (snd r) = storage w /\
  console (snd r) = console w /\
  calls (snd r) = (calls w ++ fetch_calls env urls)%list /\
  ((forall u, In u urls -> acceptable env u <> None) ->
     exists entries,
       fst r = Fulfilled entries /\
       map Some entries = map (acceptable env) urls) /\
  ((exists u, In u urls /\ acceptable env u = None) ->
     exists err, fst r = Rejected err).
Proof.
  revert w. induction urls as [|u urls IH]; intros w r; subst r.
  - cbn. rewrite app_nil_r. repeat split; auto.
    + intros _. exists []. split; reflexivity.
    + intros (u & [] & _).
  - cbn [map all].
    destruct (fetch_for_cache_spec u w) as [Hw Hr].
    destruct (fetch_for_cache env u w) as [r1 w1]. cbn [fst snd] in Hw, Hr.
    subst w1. specialize (IH (with_call (Fetch (request_of env u)) w)).
    cbn zeta in IH.
    destruct (all (map (fetch_for_cache env) urls) _) as [rs w2].
    cbn [fst snd] in *. destruct IH as (Hs & Hl & Hc & Hall & Hbad).
    split; [exact Hs|]. split; [exact Hl|]. split.
    { rewrite Hc. cbn [calls with_call fetch_calls map].
      rewrite <- app_assoc. reflexivity. }
    split.
    + intros Hok.
      destruct Hall as (entries & -> & He);
        [intros u' Hin; apply Hok; right; exact Hin|].
      destruct (acceptable env u) as [e|] eqn:Eu;
        [|exfalso; apply (Hok u); [left; reflexivity | exact Eu]].
      subst r1. exists (e :: entries). split; [reflexivity|].
      cbn [map]. rewrite He. reflexivity.
    + intros (u' & [<- | Hin] & Hu').
      * rewrite Hu' in Hr. destruct Hr as [err ->]. eauto.
      * destruct (Hbad (ex_intro _ u' (conj Hin Hu'))) as [err ->].
        destruct r1; eauto.
Qed.

(** [addAll] with an unacceptable URL: rejected, and nothing written. *)
Lemma addAll_rejects cache urls w :
  (exists u, In u urls /\ acceptable env u = None) ->
  let r := cache_addAll env cache urls w in
  (exists err, fst r = Rejected err) /\
  storage (snd r) = storage w /\
  console (snd r) = console w.
Proof.
  intros Hbad r. subst r. unfold cache_addAll.
  destruct (fetch_all_spec urls (with_call (CacheAddAll cache urls) w))
    as (Hs & Hl & _ & _ & Hrej).
  destruct (Hrej Hbad) as [err Herr].
  cbv [then_ call]. cbn [fst snd].
  destruct (all (map (fetch_for_cache env) urls) _) as [rs w2].
  cbn [fst snd] in *. subst rs. cbn [fst snd]. eauto.
Qed.

(** [addAll] with every URL acceptable: fulfilled, and every pair put. *)
Lemma addAll_fulfils cache urls w :
  (forall u, In u urls -> acceptable env u <> None) ->
  let r := cache_addAll env cache urls w in
  fst r = Fulfilled tt /\
  console (snd r) = console w /\
  exists entries,
    map Some entries = map (acceptable env) urls /\
    storage (snd r) = storage_update cache (insert_all entries) (storage w).
Proof.
  intros Hok r. subst r. unfold cache_addAll.
  destruct (fetch_all_spec urls (with_call (CacheAddAll cache urls) w))
    as (Hs & Hl & _ & Hall & _).
  destruct (Hall Hok) as (entries & He & Hmap).
  cbv [then_ call]. cbn [fst snd].
  destruct (all (map (fetch_for_cache env) urls) _) as [rs w2].
  cbn [fst snd] in *. subst rs. cbn [fst snd storage console with_storage].
  split; [reflexivity|]. split; [exact Hl|].
  exists entries. rewrite Hs. auto.
Qed.

End AddAll.

(** *** Retrieving what [addAll] wrote *)

Lemma find_app_first {A} (p : A -> bool) (l1 l2 : list A) :
  find p (l1 ++ l2)%list =
  match find p l1 with
  | Some x => Some x
  | None => find p l2
  end.
Proof.
  induction l1 as [|a l1 IH]; simpl; [reflexivity|].
  destruct (p a); [reflexivity | exact IH].
Qed.

Lemma find_filter_keeps {A} (p g : A -> bool) (l : list A) :
  (forall x, p x = true -> g x = true) ->
  find p (filter g l) = find p l.
Proof.
  intros Hpg. induction l as [|a l IH]; simpl; [reflexivity|].
  destruct (p a) eqn:Ep.
  - rewrite (Hpg a Ep). simpl. rewrite Ep. reflexivity.
  - destruct (g a); simpl; [rewrite Ep|]; exact IH.
Qed.

(** A put under one URL answers GET queries for that URL... *)
Lemma cache_match_insert_same req resp c query :
  is_get req = true -> is_get query = true -> url req = url query ->
  cache_match (cache_insert req resp c) query = Some resp.
Proof.
  intros Hr Hq Hu. unfold cache_match, cache_insert.
  rewrite (filter_ext _ (fun e => negb (request_matches query (fst e)))).
  - rewrite (find_after_purge (fun e => request_matches query (fst e)) c (req, resp)).
    + reflexivity.
    + unfold request_matches. simpl. rewrite Hq, Hu, String.eqb_refl. reflexivity.
  - intros e. unfold request_matches. rewrite Hr, Hq, Hu. reflexivity.
Qed.

(** ... and leaves the answers for every other URL alone. *)
Lemma cache_match_insert_other req resp c query :
  url req <> url query ->
  cache_match (cache_insert req resp c) query = cache_match c query.
Proof.
  intros Hne. unfold cache_match, cache_insert. f_equal.
  rewrite find_app_first, find_filter_keeps.
  - destruct (find _ c); [reflexivity|]. simpl.
    unfold request_matches. simpl.
    destruct (String.eqb_spec (url req) (url query)); [contradiction|].
    rewrite andb_false_r. reflexivity.
  - intros e He. unfold request_matches in *.
    apply andb_true_iff in He. destruct He as [_ He].
    apply String.eqb_eq in He.
    destruct (String.eqb_spec (url (fst e)) (url req)) as [E|E];
      [congruence | rewrite andb_false_r; reflexivity].
Qed.

Section InsertAll.
Variable entries : list (Request * Response).
Hypothesis entries_get : forall e, In e entries -> is_get (fst e) = true.

Lemma insert_all_keeps es c query resp :
  incl es entries ->
  is_get query = true ->
  (forall e, In e es -> url (fst e) = url query -> snd e = resp) ->
  cache_match c query = Some resp ->
  cache_match (insert_all es c) query = Some resp.
Proof.
  revert c. induction es as [|e es IH]; intros c Hin Hq Hsame Hc; [exact Hc|].
  cbn [insert_all fold_left]. apply IH.
  - intros x Hx. apply Hin. right. exact Hx.
  - exact Hq.
  - intros x Hx. apply Hsame. right. exact Hx.
  - destruct (String.eqb_spec (url (fst e)) (url query)) as [E|E].
    + rewrite (cache_match_insert_same _ _ _ _
                 (entries_get e (Hin e (or_introl eq_refl))) Hq E).
      f_equal. apply Hsame; [left; reflexivity | exact E].
    + rewrite cache_match_insert_other by exact E. exact Hc.
Qed.

Hypothesis entries_functional :
  forall e1 e2, In e1 entries -> In e2 entries ->
    url (fst e1) = url (fst e2) -> snd e1 = snd e2.

Lemma insert_all_retrievable_from es c e :
  incl es entries -> In e es ->
  cache_match (insert_all es c) (fst e) = Some (snd e).
Proof.
  revert c. induction es as [|x es IH]; intros c Hin He; [destruct He|].
  cbn [insert_all fold_left].
  assert (Hes : incl es entries) by (intros y Hy; apply Hin; right; exact Hy).
  destruct He as [-> | He].
  - apply (insert_all_keeps es); auto.
    + apply entries_get, Hin. left. reflexivity.
    + intros y Hy Hu. apply entries_functional; auto.
      apply Hin. left. reflexivity.
    + apply cache_match_insert. apply entries_get, Hin. left. reflexivity.
  - apply IH; assumption.
Qed.

Lemma insert_all_retrievable c e :
  In e entries -> cache_match (insert_all entries c) (fst e) = Some (snd e).
Proof.
  apply insert_all_retrievable_from. apply incl_refl.
Qed.

End InsertAll.

(** The pairs [addAll] puts are exactly what the acceptable URLs gave. *)
Lemma entries_of_acceptable env urls entries :
  map Some entries = map (acceptable env) urls ->
  (forall e, In e entries ->
     is_get (fst e) = true /\ network env (fst e) = Some (snd e)) /\
  (forall u, In u urls ->
     exists resp, network env (request_of env u) = Some resp /\
                  In (request_of env u, resp) entries).
Proof.
  intros Hmap. split.
  - intros e He. apply (in_map Some) in He. rewrite Hmap in He.
    apply in_map_iff in He. destruct He as (u & Hu & _).
    unfold acceptable in Hu.
    destruct (network env (request_of env u)) as [resp|] eqn:En; [|discriminate].
    destruct (_ && _); [|discriminate]. injection Hu as <-. auto.
  - intros u Hu. apply (in_map (acceptable env)) in Hu. rewrite <- Hmap in Hu.
    apply in_map_iff in Hu. destruct Hu as (e & He & Hin).
    unfold acceptable in He.
    destruct (network env (request_of env u)) as [resp|] eqn:En; [|discriminate].
    destruct (_ && _); [|discriminate]. injection He as He. subst e. eauto.
Qed.

(** [addAll] on an existing store with every URL acceptable: each URL
    is afterwards retrievable from that store under its request. *)
Lemma addAll_retrievable env name urls w c0 :
  storage_lookup name (storage w) = Some c0 ->
  (forall u, In u urls -> acceptable env u <> None) ->
  let r := cache_addAll env name urls w in
  fst r = Fulfilled tt /\
  console (snd r) = console w /\
  exists c,
    storage_lookup name (storage (snd r)) = Some c /\
    forall u, In u urls ->
      exists resp, network env (request_of env u) = Some resp /\
                   cache_match c (request_of env u) = Some resp.
Proof.
  intros Hc0 Hok r. subst r.
  destruct (addAll_fulfils env name urls w Hok)
    as (Hr & Hl & entries & Hmap & Hs).
  split; [exact Hr|]. split; [exact Hl|].
  destruct (entries_of_acceptable env _ _ Hmap) as [Hent Hurls].
  rewrite Hs, storage_lookup_update, Hc0. cbn [option_map].
  eexists; split; [reflexivity|].
  intros u Hu. destruct (Hurls u Hu) as (resp & Hn & Hin).
  exists resp. split; [exact Hn|].
  apply (insert_all_retrievable entries) with (e := (request_of env u, resp)).
  - intros e He. apply Hent, He.
  - intros e1 e2 H1 H2 Hu12.
    destruct (Hent e1 H1) as [G1 N1]. destruct (Hent e2 H2) as [G2 N2].
    assert (fst e1 = fst e2).
    { destruct (fst e1) as [u1 m1], (fst e2) as [u2 m2].
      unfold is_get in G1, G2. simpl in *.
      apply String.eqb_eq in G1, G2. congruence. }
    congruence.
  - exact Hin.
Qed.

Lemma opened_lookup name s :
  exists c0, storage_lookup name (opened name s) = Some c0.
Proof.
  unfold opened. destruct (storage_lookup name s) eqn:E.
  - rewrite E. eauto.
  - rewrite storage_lookup_app, E. simpl. rewrite String.eqb_refl. eauto.
Qed.

(** *** The install listener *)

(** C6, as the code has it.  The promise the install listener hands to
    [waitUntil] always fulfils, so a population failure never aborts the
    installation.  When some asset cannot be fetched acceptably the
    failure is logged and cache storage is what opening the current store
    left: none of the assets is added, the reachable ones included.  When
    every asset is acceptable, each one is afterwards retrievable from
    the current store under its request. *)
Theorem install_precache_all_or_nothing env w :
  let r := on_install env w in
  fst r = Fulfilled (Fulfilled tt) /\
  ((exists u, In u FILES_TO_CACHE /\ acceptable env u = None) ->
     In precaching_failed (console (snd r)) /\
     storage (snd r) = opened CACHE_NAME (storage w)) /\
  ((forall u, In u FILES_TO_CACHE -> acceptable env u <> None) ->
     exists c,
       storage_lookup CACHE_NAME (storage (snd r)) = Some c /\
       forall u, In u FILES_TO_CACHE ->
         exists resp, network env (request_of env u) = Some resp /\
                      cache_match c (request_of env u) = Some resp).
Proof.
  intro r. subst r.
  cbv [on_install then_ console_log call handed_over catch_ caches_open
       console_error].
  cbn [fst snd storage with_call with_log].
  set (w2 := with_log _ (match storage_lookup CACHE_NAME (storage w) with
                         | Some _ => _ | None => _ end)).
  assert (Hw2 : storage w2 = opened CACHE_NAME (storage w)).
  { unfold w2, opened. destruct (storage_lookup CACHE_NAME (storage w)); reflexivity. }
  split; [|split].
  - destruct (cache_addAll env CACHE_NAME FILES_TO_CACHE w2) as [[[]|err] w3];
      reflexivity.
  - intros Hbad.
    destruct (addAll_rejects env CACHE_NAME FILES_TO_CACHE w2 Hbad)
      as ([err Herr] & Hs & _).
    destruct (cache_addAll env CACHE_NAME FILES_TO_CACHE w2) as [res w3].
    cbn [fst snd] in *. subst res. cbn [fst snd console storage with_log].
    split; [apply in_or_app; right; left; reflexivity|].
    rewrite Hs. exact Hw2.
  - intros Hok.
    destruct (opened_lookup CACHE_NAME (storage w)) as [c0 Hc0].
    rewrite <- Hw2 in Hc0.
    destruct (addAll_retrievable env CACHE_NAME FILES_TO_CACHE w2 c0 Hc0 Hok)
      as (Hr & _ & c & Hc & Hall).
    destruct (cache_addAll env CACHE_NAME FILES_TO_CACHE w2) as [res w3].
    cbn [fst snd] in *. subst res. cbn [fst snd]. eauto.
Qed.

Lemma install_precache_all_or_nothing_witness :
  (In precaching_failed
     (console (snd (on_install Fixture.icon_unreachable Fixture.fresh))) /\
   storage (snd (on_install Fixture.icon_unreachable Fixture.fresh)) =
     [(CACHE_NAME, [])]) /\
  exists c,
    storage_lookup CACHE_NAME
      (storage (snd (on_install Fixture.online Fixture.fresh))) = Some c /\
    forall u, In u FILES_TO_CACHE ->
      exists resp,
        network Fixture.online (request_of Fixture.online u) = Some resp /\
        cache_match c (request_of Fixture.online u) = Some resp.
Proof.
  split.
  - destruct (install_precache_all_or_nothing Fixture.icon_unreachable
                Fixture.fresh) as (_ & H & _).
    apply H. exists "icons/icon-512.png". split; [|reflexivity].
    unfold FILES_TO_CACHE. simpl. tauto.
  - destruct (install_precache_all_or_nothing Fixture.online Fixture.fresh)
      as (_ & _ & H).
    apply H. intros u Hu. unfold FILES_TO_CACHE in Hu.
    repeat (destruct Hu as [<- | Hu]; [vm_compute; discriminate|]).
    destruct Hu.
Defined.

(** C6 as stated fails: with one icon unreachable the installation goes
    through and the failure is logged, but the current store is left
    empty although the other seventeen assets were fetched. *)
Lemma install_failure_keeps_nothing :
  let r := on_install Fixture.icon_unreachable Fixture.fresh in
  fst r = Fulfilled (Fulfilled tt) /\
  In precaching_failed (console (snd r)) /\
  acceptable Fixture.icon_unreachable "icons/icon-512.png" = None /\
  ~ holds_succeeded Fixture.icon_unreachable (snd r).
Proof.
  split; [reflexivity|]. split; [vm_compute; tauto|]. split; [reflexivity|].
  intros H.
  destruct (H "/" (request_of Fixture.icon_unreachable "/",
                   Fixture.ok_response Basic "https://tracker.example/"))
    as (c & Hc & Hm).
  - left. reflexivity.
  - reflexivity.
  - vm_compute in Hc. injection Hc as <-. discriminate.
Qed.

(** *** The message listener: [update-cache] *)

(** With every asset acceptable, [update-cache] re-adds the whole list to
    the current store. *)
Lemma update_cache_readds_assets env w :
  (forall u, In u FILES_TO_CACHE -> acceptable env u <> None) ->
  let r := on_message env update_cache_message w in
  fst r = Fulfilled (UpdateCache (Fulfilled tt)) /\
  exists c,
    storage_lookup CACHE_NAME (storage (snd r)) = Some c /\
    forall u, In u FILES_TO_CACHE ->
      exists resp, network env (request_of env u) = Some resp /\
                   cache_match c (request_of env u) = Some resp.
Proof.
  intros Hok r. subst r.
  cbv [on_message update_cache_message get then_ console_log call handed_over
       caches_open resolve].
  cbn [Js.prop Js.lookup String.eqb Ascii.eqb Bool.eqb Js.is_str fst snd
       storage with_call with_log].
  set (w2 := match storage_lookup CACHE_NAME (storage w) with
             | Some _ => _ | None => _ end).
  assert (Hw2 : storage w2 = opened CACHE_NAME (storage w)).
  { unfold w2, opened. destruct (storage_lookup CACHE_NAME (storage w)); reflexivity. }
  destruct (opened_lookup CACHE_NAME (storage w)) as [c0 Hc0].
  rewrite <- Hw2 in Hc0.
  destruct (addAll_retrievable env CACHE_NAME FILES_TO_CACHE w2 c0 Hc0 Hok)
    as (Hr & _ & c & Hc & Hall).
  destruct (cache_addAll env CACHE_NAME FILES_TO_CACHE w2) as [res w3].
  cbn [fst snd] in *. subst res. eauto.
Qed.

(** With an unacceptable asset, the rejection of [addAll] goes to
    [waitUntil] as it is: nothing catches it and nothing is logged. *)
Lemma update_cache_failure_propagates env w :
  (exists u, In u FILES_TO_CACHE /\ acceptable env u = None) ->
  let r := on_message env update_cache_message w in
  (exists err, fst r = Fulfilled (UpdateCache (Rejected err))) /\
  console (snd r) =
    (console w ++ [Log "[Service Worker] Message received:"])%list.
Proof.
  intros Hbad r. subst r.
  cbv [on_message update_cache_message get then_ console_log call handed_over
       caches_open resolve].
  cbn [Js.prop Js.lookup String.eqb Ascii.eqb Bool.eqb Js.is_str fst snd
       storage with_call with_log].
  set (w2 := match storage_lookup CACHE_NAME (storage w) with
             | Some _ => _ | None => _ end).
  assert (Hw2 : console w2 =
                (console w ++ [Log "[Service Worker] Message received:"])%list).
  { unfold w2. destruct (storage_lookup CACHE_NAME (storage w)); reflexivity. }
  destruct (addAll_rejects env CACHE_NAME FILES_TO_CACHE w2 Hbad)
    as ([err Herr] & _ & Hl).
  destruct (cache_addAll env CACHE_NAME FILES_TO_CACHE w2) as [res w3].
  cbn [fst snd] in *. subst res. rewrite Hl, Hw2. eauto.
Qed.

(** C7, the failing input.  One icon is unreachable.  [update-cache]
    leaves [waitUntil] with a rejected promise and logs no error, where
    the install listener, on the same network, fulfils and logs. *)
Example update_cache_failure_uncaught :
  let r := on_message Fixture.icon_unreachable update_cache_message
             Fixture.fresh in
  let i := on_install Fixture.icon_unreachable Fixture.fresh in
  fst r = Fulfilled (UpdateCache (Rejected (TypeError "Failed to fetch"))) /\
  console (snd r) = [Log "[Service Worker] Message received:"] /\
  fst i = Fulfilled (Fulfilled tt) /\
  console (snd i) = [Log "[Service Worker] Install";
                     Log "[Service Worker] Caching app shell and content";
                     precaching_failed].
Proof.
  repeat split.
Qed.

(** *** The push listener *)

(** A payload that is not JSON leaves the locals of the listener as they
    were initialised. *)
Lemma push_try_malformed d l :
  json d = None ->
  exists err, push_try d l = (Rejected err, l).
Proof.
  intros Hd. unfold push_try, then_, event_data_json. rewrite Hd.
  eexists. reflexivity.
Qed.

(** C8.  When the payload of a push event does not parse as JSON, the
    listener logs the error, does not throw, and asks for one
    notification with the default title, body and tag and no [data];
    the promise it hands to [waitUntil] fulfils. *)
Theorem push_malformed_shows_defaults w d :
  json d = None ->
  let r := on_push (Some d) w in
  fst r = Fulfilled (Fulfilled tt) /\
  console (snd r) =
    (console w ++ [Log "[Service Worker] Push received:"; parse_error_logged])%list /\
  calls (snd r) =
    (calls w ++
     [ShowNotification (Js.Str "Daily Tracker")
        {| opt_body := Js.Str "Time to check your health reminders!";
           icon := "icons/icon-192.png";
           badge := "icons/icon-192.png";
           tag := Js.Str "reminder-notification";
           requireInteraction := false;
           actions := [ {| action := "open"; action_title := "Open App" |};
                        {| action := "dismiss"; action_title := "Dismiss" |} ];
           data := None |}])%list /\
  storage (snd r) = storage w.
Proof.
  intros Hd r. subst r.
  destruct (push_try_malformed d push_initial Hd) as [err Htry].
  unfold on_push. rewrite Htry.
  cbv [then_ console_log console_error resolve handed_over showNotification call].
  cbn [fst snd console calls storage with_log with_call].
  rewrite <- app_assoc. repeat split.
Qed.

Lemma push_malformed_shows_defaults_witness :
  let d := {| text := "{title: "; json := None |} in
  calls (snd (on_push (Some d) Fixture.fresh)) =
    [ShowNotification (title push_initial) (options push_initial)].
Proof.
  intro d.
  destruct (push_malformed_shows_defaults Fixture.fresh d eq_refl)
    as (_ & _ & H & _).
  exact H.
Defined.

(** The payload of the specification's example, for comparison: title,
    body and reminder data come from the payload, the tag stays. *)
Example push_reminder_payload :
  let payload := Js.Obj [ ("title", Js.Str "T"); ("body", Js.Str "B");
                          ("type", Js.Str "reminder");
                          ("reminderId", Js.Str "42") ] in
  calls (snd (on_push (Some {| text := ""; json := Some payload |})
                Fixture.fresh)) =
    [ShowNotification (Js.Str "T")
       (with_data
          (Js.Obj [ ("type", Js.Str "reminder");
                    ("reminderId", Js.Str "42");
                    ("action", Js.Str "open") ])
          (with_body (Js.Str "B") (options push_initial)))].
Proof.
  reflexivity.
Qed.

(** *** The notification click listener *)

Lemma first_matching_includes env l client :
  first_matching env l = Some client ->
  In client l /\
  Js.includes (client_url client) (scope env) = true /\
  has_focus client = true.
Proof.
  induction l as [|c l IH]; simpl; [discriminate|].
  destruct (Js.includes (client_url c) (scope env) && has_focus c) eqn:E.
  - intros [= <-]. apply andb_true_iff in E. tauto.
  - intros H. destruct (IH H) as (Hin & Hi & Hf). tauto.
Qed.

(** A click that is not a dismissal, with a window selected: the window
    gets the reminder message when the notification carries reminder
    data, and is then focused; no window is opened. *)
Lemma click_focuses_selected env w event_action notification_data client :
  (event_action =? "dismiss") = false ->
  first_matching env
    (filter (fun c => is_window c && (true || controlled c)) (clients env))
    = Some client ->
  let notificationData := Js.or_else notification_data (Js.Obj []) in
  let reminder :=
    match Js.prop notificationData "type" with
    | Some ty => Js.is_str ty "reminder"
    | None => false
    end in
  let reminderId :=
    match Js.prop notificationData "reminderId" with
    | Some rid => rid
    | None => Js.Undefined
    end in
  calls (snd (on_notificationclick env event_action notification_data w)) =
    (calls w ++ [NotificationClose; ClientsMatchAll]
       ++ (if reminder then [PostMessage client (click_message reminderId)]
           else [])
       ++ [Focus client])%list.
Proof.
  intros Ha Hsel nd reminder rid.
  unfold on_notificationclick. fold nd.
  cbv [then_ console_log call resolve handed_over open_or_focus
       clients_matchAll_windows].
  rewrite Ha. cbn [fst snd]. rewrite Hsel.
  assert (Hnd : exists v, Js.prop nd "type" = Some v /\
                          exists v', Js.prop nd "reminderId" = Some v').
  { unfold nd, Js.or_else.
    destruct notification_data; simpl; eauto;
      match goal with |- context [if ?b then _ else _] => destruct b end;
      simpl; eauto. }
  destruct Hnd as (ty & Hty & rid' & Hrid).
  subst reminder rid. unfold get. rewrite Hty. cbv [resolve]. cbn [fst snd].
  destruct (Js.is_str ty "reminder").
  - rewrite Hrid. cbv [postMessage focus call]. cbn [fst snd calls with_call with_log].
    repeat rewrite <- app_assoc. reflexivity.
  - cbv [focus call]. cbn [fst snd calls with_call with_log].
    repeat rewrite <- app_assoc. reflexivity.
Qed.

(** C9, the failing input.  The worker is registered for
    [https://tracker.example/core/].  A help page outside that scope,
    whose query string happens to contain the scope, comes first in the
    client list; a page of the application follows.  The click posts the
    reminder message to the help page and focuses it. *)
Example click_selects_window_outside_scope :
  let help := {| client_url :=
                   "https://tracker.example/help?back=https://tracker.example/core/";
                 client_type := Window; controlled := false |} in
  let app := {| client_url := "https://tracker.example/core/index.html";
                client_type := Window; controlled := true |} in
  let env := {| origin := "https://tracker.example";
                scope := "https://tracker.example/core/";
                base := "https://tracker.example/core/";
                network := fun _ => None;
                storage_fails := fun _ => false;
                clients := [help; app] |} in
  let reminder := Js.Obj [ ("type", Js.Str "reminder");
                           ("reminderId", Js.Str "7");
                           ("action", Js.Str "open") ] in
  under_scope env (client_url help) = false /\
  under_scope env (client_url app) = true /\
  calls (snd (on_notificationclick env "open" reminder Fixture.fresh)) =
    [NotificationClose; ClientsMatchAll;
     PostMessage help (click_message (Js.Str "7")); Focus help].
Proof.
  repeat split.
Qed.

(** *** The message listener: what can throw *)

(** C10 as stated fails in its last part: a message need not be an
    object for the router to stay free of errors.  A page that posts the
    bare string ["update-cache"] gets the unknown-type branch. *)
Lemma message_string_dispatches :
  let message := Js.Str "update-cache" in
  is_object message = false /\
  on_message Fixture.online message Fixture.fresh =
    (Fulfilled UnknownType,
     {| storage := [];
        console := [received; Log "[Service Worker] Unknown message type:"];
        calls := [] |}) /\
  ~ (forall m, dispatches Fixture.online Fixture.fresh m -> is_object m = true).
Proof.
  split; [reflexivity|]. split; [reflexivity|].
  intros H. specialize (H (Js.Str "update-cache")).
  assert (D : dispatches Fixture.online Fixture.fresh (Js.Str "update-cache"))
    by (exists UnknownType; reflexivity).
  apply H in D. discriminate.
Qed.

Lemma prop_defined v k :
  v <> Js.Null -> v <> Js.Undefined -> exists x, Js.prop v k = Some x.
Proof.
  intros Hn Hu. destruct v; simpl; eauto; congruence.
Qed.

(** C10, as the code has it.  When [event.data] is [null] or [undefined]
    the destructuring throws a TypeError: the message has been logged as
    received and nothing else has happened, no branch of the switch
    included.  For every other message, objects and primitive values
    alike, the listener does not throw and runs one branch. *)
Theorem message_throws_exactly_on_nullish env w message :
  let r := on_message env message w in
  (message = Js.Null \/ message = Js.Undefined ->
     (exists msg, fst r = Rejected (TypeError msg)) /\
     snd r = with_log received w) /\
  (message <> Js.Null -> message <> Js.Undefined ->
     dispatches env w message).
Proof.
  intro r. subst r. split.
  - intros [-> | ->]; (split; [eexists; reflexivity | reflexivity]).
  - intros Hn Hu. unfold dispatches.
    destruct (prop_defined message "type" Hn Hu) as [ty Hty].
    destruct (prop_defined message "data" Hn Hu) as [da Hda].
    cbv [on_message get then_ console_log resolve handed_over].
    rewrite Hty, Hda. cbn [fst snd].
    destruct (Js.is_str ty "schedule-reminder");
      [|destruct (Js.is_str ty "cancel-reminder");
        [|destruct (Js.is_str ty "update-cache")]];
      cbn [fst snd]; eauto.
Qed.

Lemma message_throws_exactly_on_nullish_witness :
  snd (on_message Fixture.online Js.Null Fixture.fresh) =
    with_log received Fixture.fresh /\
  dispatches Fixture.online Fixture.fresh (Js.Num 5).
Proof.
  split.
  - destruct (message_throws_exactly_on_nullish Fixture.online Fixture.fresh
                Js.Null) as (H & _).
    apply H. left. reflexivity.
  - destruct (message_throws_exactly_on_nullish Fixture.online Fixture.fresh
                (Js.Num 5)) as (_ & H).
    apply H; discriminate.
Defined.

(* ================================================================== *)
(** ** Further properties of the listeners *)
(* ================================================================== *)

(** *** Notification clicks *)

(** [event.notification.data || {}] can be read from without a throw. *)
Lemma notification_data_readable v k :
  Js.prop (Js.or_else v (Js.Obj [])) k = Some (field (Js.or_else v (Js.Obj [])) k).
Proof.
  unfold field, Js.or_else.
  destruct v as [| |b|n|s|items|props]; simpl; try reflexivity.
  - destruct b; reflexivity.
  - destruct (negb (n =? 0)%Z); reflexivity.
  - destruct (negb (s =? "")); reflexivity.
Qed.

(** X1.  A dismissal closes the notification and does nothing else: no client
    is looked up, messaged, focused or opened, whatever the clients and
    the notification data are. *)
Theorem click_dismiss_only_closes env w notification_data :
  let r := on_notificationclick env "dismiss" notification_data w in
  fst r = Fulfilled None /\
  calls (snd r) = (calls w ++ [NotificationClose])%list /\
  storage (snd r) = storage w /\
  console (snd r) =
    (console w ++ [Log "[Service Worker] Notification click:"])%list.
Proof.
  repeat split.
Qed.

(** X2.  The loop over the client list stops at the first client passing the
    test: every client before the selected one fails it, and the selected
    one is a window client whose URL contains the scope string. *)
Theorem first_matching_is_first env l client :
  first_matching env l = Some client ->
  exists before after,
    l = (before ++ client :: after)%list /\
    Forall (fun c => passes env c = false) before /\
    Js.includes (client_url client) (scope env) = true /\
    client_type client = Window.
Proof.
  induction l as [|c l IH]; simpl; [discriminate|].
  fold (passes env c). destruct (passes env c) eqn:E.
  - intros [= <-]. exists [], l. split; [reflexivity|]. split; [constructor|].
    unfold passes, has_focus, is_window in E.
    apply andb_true_iff in E. destruct E as [E1 E2].
    split; [exact E1|]. destruct (client_type c); (reflexivity || discriminate).
  - intros H. destruct (IH H) as (before & after & -> & Hb & Hi & Hw).
    exists (c :: before), after. split; [reflexivity|].
    split; [constructor; assumption | auto].
Qed.

Lemma first_matching_is_first_witness :
  let app := {| client_url := "https://tracker.example/core/index.html";
                client_type := Window; controlled := true |} in
  let service := {| client_url := "https://tracker.example/core/sync-worker.js";
                    client_type := Worker; controlled := true |} in
  let other := {| client_url := "https://tracker.example/blog/";
                  client_type := Window; controlled := false |} in
  exists before after,
    [service; other; app; app] = (before ++ app :: after)%list /\
    Forall (fun c => passes Fixture.online c = false) before /\
    Js.includes (client_url app) (scope Fixture.online) = true /\
    client_type app = Window.
Proof.
  intros app service other.
  apply (first_matching_is_first Fixture.online [service; other; app; app] app).
  reflexivity.
Defined.



(** *** Notification close *)

(** X4.  The close listener never throws, whatever data the notification
    carries ([null] included); it only logs, one more line for a
    reminder, and makes no host call. *)
Theorem notificationclose_only_logs w notification_data :
  let notificationData := Js.or_else notification_data (Js.Obj []) in
  let r := on_notificationclose notification_data w in
  fst r = Fulfilled tt /\
  calls (snd r) = calls w /\
  storage (snd r) = storage w /\
  console (snd r) =
    (console w ++ Log "[Service Worker] Notification closed:"
       :: (if is_reminder notificationData
           then [Log "[Service Worker] Reminder notification dismissed"]
           else []))%list.
Proof.
  intros nd r. subst r. unfold on_notificationclose. fold nd.
  cbv [then_ console_log resolve]. cbn [fst snd].
  pose proof (notification_data_readable notification_data "type") as Hty.
  fold nd in Hty. unfold get. rewrite Hty.
  unfold is_reminder. cbv [resolve]. cbn [fst snd].
  destruct (Js.is_str (field nd "type") "reminder");
    cbn [fst snd calls storage console with_log];
    repeat rewrite <- app_assoc; repeat split.
Qed.

(** *** Push payloads *)


(** The [try] block on a payload that parsed to something else than an
    object: [null] makes the first property read throw; a primitive or an
    array has none of the properties, so every default stays. *)
Lemma push_try_non_object d v :
  json d = Some v ->
  (forall props, v <> Js.Obj props) ->
  if nullish v
  then exists err, push_try d push_initial = (Rejected err, push_initial)
  else push_try d push_initial = (Fulfilled tt, push_initial).
Proof.
  intros Hd Hv. unfold push_try, event_data_json. rewrite Hd.
  destruct v; simpl; try (eexists; reflexivity); try reflexivity.
  exfalso. eapply Hv. reflexivity.
Qed.



(** X6.  A push whose payload parses to something that is not an object shows
    the default notification.  The JSON value [null] is reported through
    the parse-error log line although it parsed; a number, string,
    boolean or array is not reported at all. *)
Theorem push_non_object_payload_shows_defaults w d v :
  json d = Some v ->
  (forall props, v <> Js.Obj props) ->
  let r := on_push (Some d) w in
  fst r = Fulfilled (Fulfilled tt) /\
  calls (snd r) =
    (calls w ++ [ShowNotification (title push_initial) (options push_initial)])%list /\
  console (snd r) =
    (console w ++ pushed :: (if nullish v then [parse_error_logged] else []))%list.
Proof.
  intros Hd Hv r. subst r. unfold on_push.
  pose proof (push_try_non_object d v Hd Hv) as Htry.
  destruct (nullish v).
  - destruct Htry as [err ->].
    cbv [then_ console_log console_error resolve handed_over showNotification call].
    cbn [fst snd calls console with_log with_call].
    rewrite <- app_assoc. repeat split.
  - rewrite Htry.
    cbv [then_ console_log console_error resolve handed_over showNotification call].
    cbn [fst snd calls console with_log with_call]. repeat split.
Qed.

Lemma push_non_object_payload_shows_defaults_witness :
  console (snd (on_push (Some {| text := "null"; json := Some Js.Null |})
                  Fixture.fresh)) = [pushed; parse_error_logged] /\
  console (snd (on_push (Some {| text := "42"; json := Some (Js.Num 42) |})
                  Fixture.fresh)) = [pushed].
Proof.
  split.
  - destruct (push_non_object_payload_shows_defaults Fixture.fresh
                {| text := "null"; json := Some Js.Null |} Js.Null eq_refl)
      as (_ & _ & H); [discriminate | exact H].
  - destruct (push_non_object_payload_shows_defaults Fixture.fresh
                {| text := "42"; json := Some (Js.Num 42) |} (Js.Num 42) eq_refl)
      as (_ & _ & H); [discriminate | exact H].
Defined.


(** *** Messages other than [update-cache] *)

(** X8.  For a message that is neither [null] nor [undefined] and whose [type]
    is not the string ['update-cache'], the listener only logs: the
    message as received, then one line for the branch taken.  It makes no
    host call and leaves cache storage alone, so ['schedule-reminder']
    and ['cancel-reminder'] schedule and cancel nothing. *)
Theorem message_stubs_only_log env w message :
  nullish message = false ->
  Js.is_str (field message "type") "update-cache" = false ->
  on_message env message w =
    (Fulfilled (stub_branch (field message "type")),
     with_log (stub_line (field message "type")) (with_log received w)).
Proof.
  intros Hn Hu.
  assert (Hprop : forall k, Js.prop message k = Some (field message k)).
  { intros k. unfold field. destruct message; simpl; try reflexivity; discriminate. }
  cbv [on_message get then_ console_log resolve handed_over].
  rewrite (Hprop "type"), (Hprop "data"). cbn [fst snd].
  unfold stub_branch, stub_line. rewrite Hu.
  destruct (Js.is_str (field message "type") "schedule-reminder");
    [|destruct (Js.is_str (field message "type") "cancel-reminder")];
    reflexivity.
Qed.

Lemma message_stubs_only_log_witness :
  on_message Fixture.online
    (Js.Obj [ ("type", Js.Str "schedule-reminder");
              ("data", Js.Obj [("reminderId", Js.Str "7")]) ])
    Fixture.fresh =
    (Fulfilled ScheduleReminder,
     {| storage := [];
        console := [received;
                    Log "[Service Worker] Reminder scheduling requested:"];
        calls := [] |}).
Proof.
  exact (message_stubs_only_log Fixture.online Fixture.fresh
           (Js.Obj [ ("type", Js.Str "schedule-reminder");
                     ("data", Js.Obj [("reminderId", Js.Str "7")]) ])
           eq_refl eq_refl).
Defined.

(** *** The fetch listener and the cache *)

(** X9.  On a miss with the network down, the failure is logged, the listener
    answers with [undefined] (the page sees a failed fetch), and cache
    storage is left as it was: no store is opened or written. *)
Theorem fetch_network_failure_answers_undefined env w request :
  Url.origin_of (url request) = origin env ->
  storage_match (storage w) request = None ->
  network env request = None ->
  let r := on_fetch env request w in
  fst r = Fulfilled (RespondWith (Fulfilled None)) /\
  console (snd r) =
    (console w ++ [LogError "[Service Worker] Fetch failed:"])%list /\
  calls (snd r) = (calls w ++ [CachesMatch request; Fetch request])%list /\
  storage (snd r) = storage w.
Proof.
  intros Ho Hm Hn r. subst r.
  rewrite (on_fetch_miss_offline env w request
             (same_origin_startsWith _ _ Ho) Hm Hn).
  cbn [fst snd console calls storage with_log with_call].
  rewrite <- app_assoc. repeat split.
Qed.

Lemma fetch_network_failure_answers_undefined_witness :
  let offline := Fixture.tracker (fun _ => None) in
  fst (on_fetch offline Fixture.ui_script Fixture.fresh) =
    Fulfilled (RespondWith (Fulfilled None)) /\
  console (snd (on_fetch offline Fixture.ui_script Fixture.fresh)) =
    [LogError "[Service Worker] Fetch failed:"] /\
  calls (snd (on_fetch offline Fixture.ui_script Fixture.fresh)) =
    [CachesMatch Fixture.ui_script; Fetch Fixture.ui_script] /\
  storage (snd (on_fetch offline Fixture.ui_script Fixture.fresh)) = [].
Proof.
  intro offline.
  exact (fetch_network_failure_answers_undefined offline Fixture.fresh
           Fixture.ui_script eq_refl eq_refl eq_refl).
Defined.

(** No cache answers a query that is not a GET. *)
Lemma storage_match_non_get s query :
  is_get query = false -> storage_match s query = None.
Proof.
  intros Hg. induction s as [|[n c] s IH]; simpl; [reflexivity|].
  assert (Hc : cache_match c query = None).
  { unfold cache_match. induction c as [|e c IHc]; simpl; [reflexivity|].
    unfold request_matches at 1. rewrite Hg. simpl. exact IHc. }
  rewrite Hc. exact IH.
Qed.

(** What opening a store and putting into it can change: nothing in the
    stores of another name, and in the store itself only the answer for
    the URL that was put. *)
Lemma open_put_footprint name request response w :
  let w' := snd ((cache <- caches_open name ;; cache_put cache request response) w) in
  (forall other, other <> name ->
     storage_lookup other (storage w') = storage_lookup other (storage w)) /\
  (forall c0, storage_lookup name (storage w) = Some c0 ->
     exists c', storage_lookup name (storage w') = Some c' /\
       forall query, url request <> url query ->
         cache_match c' query = cache_match c0 query).
Proof.
  destruct (caches_open_spec name w) as (Hr & Hl & Ho & _).
  unfold then_ at 1. destruct (caches_open name w) as [r w1].
  cbn [fst snd] in Hr, Hl, Ho. subst r.
  unfold cache_put, then_, call. cbn [fst snd].
  destruct (storable request response);
    cbn [fst snd storage with_storage with_call reject]; split.
  - intros other Hne. rewrite storage_lookup_update_other by assumption. auto.
  - intros c0 Hc0. rewrite storage_lookup_update, Hl, Hc0. cbn [option_map].
    eexists; split; [reflexivity|].
    intros query Hq. apply cache_match_insert_other, Hq.
  - exact Ho.
  - intros c0 Hc0. rewrite Hl, Hc0. eauto.
Qed.

(** X10.  The footprint of the fetch listener on cache storage.  Whatever the
    request, the caches and the network: stores of another name than the
    current one are as before, the current store is never removed, and
    its answers for every URL other than the request's are as before. *)
Theorem fetch_cache_footprint env w request :
  let w' := snd (on_fetch env request w) in
  (forall other, other <> CACHE_NAME ->
     storage_lookup other (storage w') = storage_lookup other (storage w)) /\
  (forall c0, storage_lookup CACHE_NAME (storage w) = Some c0 ->
     exists c', storage_lookup CACHE_NAME (storage w') = Some c' /\
       forall query, url request <> url query ->
         cache_match c' query = cache_match c0 query).
Proof.
  intro w'. subst w'.
  destruct (Js.startsWith (url request) (origin env)) eqn:Hp;
    [|rewrite (on_fetch_unprefixed env w request Hp); cbn [snd]; eauto].
  destruct (storage_match (storage w) request) as [cached|] eqn:Hm;
    [rewrite (on_fetch_hit env w request cached Hp Hm); cbn [snd]; eauto|].
  destruct (network env request) as [response|] eqn:Hn;
    [|rewrite (on_fetch_miss_offline env w request Hp Hm Hn); cbn [snd]; eauto].
  rewrite (on_fetch_miss env w request response Hp Hm Hn). cbn [snd].
  destruct (is_valid response); [|cbn [storage with_call]; eauto].
  exact (open_put_footprint CACHE_NAME request response
           (with_call (Fetch request) (with_call (CachesMatch request) w))).
Qed.

(** X11.  A request that is not a GET is never answered from the caches, even
    when its URL is cached: the listener always asks the network.  Nor is
    its response ever written: every store keeps its contents. *)
Theorem fetch_non_get_goes_to_network env w request :
  Js.startsWith (url request) (origin env) = true ->
  is_get request = false ->
  let w' := snd (on_fetch env request w) in
  (exists later,
     calls w' = (calls w ++ [CachesMatch request; Fetch request] ++ later)%list) /\
  (forall name c, storage_lookup name (storage w) = Some c ->
     storage_lookup name (storage w') = Some c).
Proof.
  intros Hp Hg w'. subst w'.
  pose proof (storage_match_non_get (storage w) request Hg) as Hm.
  destruct (network env request) as [response|] eqn:Hn.
  - rewrite (on_fetch_miss env w request response Hp Hm Hn). cbn [snd].
    destruct (is_valid response).
    + split.
      * exists [CachesOpen CACHE_NAME; CachePut CACHE_NAME request response].
        rewrite open_put_calls. cbn [calls with_call].
        repeat rewrite <- app_assoc. reflexivity.
      * intros name c Hc.
        assert (Hs : storable request response = false)
          by (unfold storable; rewrite Hg; reflexivity).
        destruct (String.eqb_spec name CACHE_NAME) as [-> | Hne].
        -- rewrite (open_put_rejected CACHE_NAME request response _ Hs).
           cbn [storage with_call]. rewrite Hc. reflexivity.
        -- destruct (open_put_footprint CACHE_NAME request response
                       (with_call (Fetch request)
                          (with_call (CachesMatch request) w))) as [Ho _].
           rewrite (Ho name Hne). exact Hc.
    + split; [exists []|auto]. cbn [calls with_call].
      repeat rewrite <- app_assoc. reflexivity.
  - rewrite (on_fetch_miss_offline env w request Hp Hm Hn).
    split; [exists []|auto]. cbn [snd calls with_log with_call].
    repeat rewrite <- app_assoc. reflexivity.
Qed.

Lemma fetch_non_get_goes_to_network_witness :
  let post := {| url := url Fixture.ui_script; method := "POST" |} in
  (exists later,
     calls (snd (on_fetch Fixture.online post Fixture.warm)) =
       ([CachesMatch post; Fetch post] ++ later)%list) /\
  storage_lookup CACHE_NAME
    (storage (snd (on_fetch Fixture.online post Fixture.warm))) =
    Some [(Fixture.ui_script, Fixture.ok_response Basic "ui")].
Proof.
  intro post.
  destruct (fetch_non_get_goes_to_network Fixture.online Fixture.warm post
              eq_refl eq_refl) as [Hcalls Hkeep].
  split; [exact Hcalls | apply Hkeep; reflexivity].
Defined.

(** *** A miss followed by the same request *)

Lemma opened_cons_other name n c s :
  (n =? name) = false ->
  opened name ((n, c) :: s) = (n, c) :: opened name s.
Proof.
  intros Hn. unfold opened. simpl. rewrite Hn.
  destruct (storage_lookup name s); reflexivity.
Qed.

(** Storage after [caches.open(name)] and an accepted put. *)
Lemma open_put_storage name request response w :
  storable request response = true ->
  storage (snd ((cache <- caches_open name ;; cache_put cache request response) w))
  = storage_update name (cache_insert request response) (opened name (storage w)).
Proof.
  intros Hs. cbv [then_ caches_open call cache_put]. rewrite Hs.
  cbn [fst snd storage with_call]. unfold opened.
  destruct (storage_lookup name (storage w)); reflexivity.
Qed.

(** Once a GET request that no store answered has been put in a store,
    [caches.match] answers it with what was put. *)
Lemma storage_match_after_put name request response s :
  is_get request = true ->
  storage_match s request = None ->
  storage_match
    (storage_update name (cache_insert request response) (opened name s))
    request = Some response.
Proof.
  intros Hg. induction s as [|[n c] s IH]; intros Hm.
  - unfold opened. simpl. rewrite String.eqb_refl. simpl.
    rewrite (cache_match_insert request response [] Hg). reflexivity.
  - simpl in Hm. destruct (cache_match c request) eqn:Hc; [discriminate|].
    destruct (n =? name) eqn:Hn.
    + unfold opened. simpl. rewrite Hn. simpl. rewrite Hn. simpl.
      rewrite (cache_match_insert request response c Hg). reflexivity.
    + rewrite (opened_cons_other name n c s Hn). simpl. rewrite Hn. simpl.
      rewrite Hc. apply IH, Hm.
Qed.

(** X12.  Miss, then hit.  After a same-origin GET request missed the caches
    and fetched a 200 basic response that does not vary on [*], the same
    request is answered from the cache with that very response: the
    second time the listener only looks the request up, it neither asks
    the network nor writes. *)
Theorem fetch_miss_then_hit env w request response :
  Url.origin_of (url request) = origin env ->
  is_get request = true ->
  storage_match (storage w) request = None ->
  network env request = Some response ->
  status response = 200%Z -> type response = Basic ->
  has_vary_star response = false ->
  let w1 := snd (on_fetch env request w) in
  on_fetch env request w1 =
    (Fulfilled (RespondWith (Fulfilled (Some response))),
     with_call (CachesMatch request) w1).
Proof.
  intros Ho Hg Hm Hn Hs Ht Hv w1.
  pose proof (same_origin_startsWith _ _ Ho) as Hp.
  apply on_fetch_hit; [exact Hp|].
  subst w1. rewrite (on_fetch_miss env w request response Hp Hm Hn). cbn [snd].
  assert (V : is_valid response = true) by (apply is_valid_iff; auto).
  rewrite V.
  assert (St : storable request response = true)
    by (rewrite (storable_valid _ _ V), Hg, Hv; reflexivity).
  rewrite (open_put_storage CACHE_NAME request response _ St).
  cbn [storage with_call].
  apply storage_match_after_put; assumption.
Qed.

Lemma fetch_miss_then_hit_witness :
  let w1 := snd (on_fetch Fixture.online Fixture.ui_script Fixture.fresh) in
  on_fetch Fixture.online Fixture.ui_script w1 =
    (Fulfilled (RespondWith (Fulfilled (Some Fixture.ui_response))),
     with_call (CachesMatch Fixture.ui_script) w1).
Proof.
  exact (fetch_miss_then_hit Fixture.online Fixture.fresh Fixture.ui_script
           Fixture.ui_response eq_refl eq_refl eq_refl eq_refl eq_refl eq_refl
           eq_refl).
Defined.

(** *** Installing, then fetching *)

(** A store holding an answer makes [caches.match] answer. *)
Lemma storage_match_of_lookup name s c query r :
  storage_lookup name s = Some c ->
  cache_match c query = Some r ->
  exists r', storage_match s query = Some r'.
Proof.
  induction s as [|[n c'] s IH]; simpl; [discriminate|].
  destruct (cache_match c' query) as [r0|] eqn:E; [eauto|].
  destruct (n =? name).
  - intros [= ->]. congruence.
  - exact IH.
Qed.

(** The install listener with every asset acceptable. *)
Lemma on_install_success env w :
  (forall u, In u FILES_TO_CACHE -> acceptable env u <> None) ->
  exists c,
    storage_lookup CACHE_NAME (storage (snd (on_install env w))) = Some c /\
    forall u, In u FILES_TO_CACHE ->
      exists resp, cache_match c (request_of env u) = Some resp.
Proof.
  intros Hok.
  cbv [on_install then_ console_log call handed_over catch_ caches_open
       console_error].
  cbn [fst snd storage with_call with_log].
  set (w2 := with_log _ (match storage_lookup CACHE_NAME (storage w) with
                         | Some _ => _ | None => _ end)).
  assert (Hw2 : storage w2 = opened CACHE_NAME (storage w)).
  { unfold w2, opened. destruct (storage_lookup CACHE_NAME (storage w)); reflexivity. }
  destruct (opened_lookup CACHE_NAME (storage w)) as [c0 Hc0].
  rewrite <- Hw2 in Hc0.
  destruct (addAll_retrievable env CACHE_NAME FILES_TO_CACHE w2 c0 Hc0 Hok)
    as (Hr & _ & c & Hc & Hall).
  destruct (cache_addAll env CACHE_NAME FILES_TO_CACHE w2) as [res w3].
  cbn [fst snd] in *. subst res. cbn [fst snd].
  exists c. split; [exact Hc|].
  intros u Hu. destruct (Hall u Hu) as (resp & _ & Hresp). eauto.
Qed.

(** X13.  Install, then fetch.  After an installation in which every asset was
    fetched acceptably, a request for any asset of the list whose URL
    begins with the worker's origin is answered from the caches: the
    listener looks it up and makes no other host call, so the asset is
    served with the network down. *)
Theorem install_then_fetch_hit env w u :
  (forall a, In a FILES_TO_CACHE -> acceptable env a <> None) ->
  In u FILES_TO_CACHE ->
  Js.startsWith (url (request_of env u)) (origin env) = true ->
  let w1 := snd (on_install env w) in
  exists cached,
    on_fetch env (request_of env u) w1 =
      (Fulfilled (RespondWith (Fulfilled (Some cached))),
       with_call (CachesMatch (request_of env u)) w1).
Proof.
  intros Hok Hu Hp w1. subst w1.
  destruct (on_install_success env w Hok) as (c & Hc & Hall).
  destruct (Hall u Hu) as (resp & Hresp).
  destruct (storage_match_of_lookup _ _ _ _ _ Hc Hresp) as [cached Hm].
  exists cached. apply on_fetch_hit; assumption.
Qed.

Lemma all_assets_acceptable_online :
  forall a, In a FILES_TO_CACHE -> acceptable Fixture.online a <> None.
Proof.
  intros a Ha. unfold FILES_TO_CACHE in Ha.
  repeat (destruct Ha as [<- | Ha]; [vm_compute; discriminate|]).
  destruct Ha.
Defined.

Lemma install_then_fetch_hit_witness :
  exists cached,
    on_fetch Fixture.online (request_of Fixture.online "core/ui.js")
      (snd (on_install Fixture.online Fixture.fresh)) =
      (Fulfilled (RespondWith (Fulfilled (Some cached))),
       with_call (CachesMatch (request_of Fixture.online "core/ui.js"))
         (snd (on_install Fixture.online Fixture.fresh))).
Proof.
  apply (install_then_fetch_hit Fixture.online Fixture.fresh "core/ui.js"
           all_assets_acceptable_online).
  - unfold FILES_TO_CACHE. simpl. tauto.
  - reflexivity.
Defined.

(** *** Activation and the current store *)

(** What activation leaves of cache storage. *)
Lemma on_activate_storage env w :
  storage (snd (on_activate env w)) =
  filter (fun e => (fst e =? CACHE_NAME) || storage_fails env (fst e))
    (storage w).
Proof.
  rewrite on_activate_world.
  destruct (remove_all_spec env (map fst (storage w))
              (with_call ClientsClaim
                 (with_call CachesKeys
                    (with_log (Log "[Service Worker] Activate") w))))
    as [Hs _].
  cbn [storage with_call with_log] in Hs. rewrite Hs.
  apply filter_ext_in. intros e Hin.
  rewrite (deleted_by_own_key env _ e Hin).
  destruct (fst e =? CACHE_NAME), (storage_fails env (fst e)); reflexivity.
Qed.

Lemma storage_lookup_filter name (p : string * Cache -> bool) s :
  (forall c, p (name, c) = true) ->
  storage_lookup name (filter p s) = storage_lookup name s.
Proof.
  intros Hp. induction s as [|[n c] s IH]; simpl; [reflexivity|].
  destruct (n =? name) eqn:E.
  - apply String.eqb_eq in E. subst n. rewrite Hp. simpl.
    rewrite String.eqb_refl. reflexivity.
  - destruct (p (n, c)); simpl; [rewrite E|]; exact IH.
Qed.

(** X14.  Activation never touches the current store: whatever stores exist
    and whichever deletions fail, the store named by the current version
    is afterwards what it was before (absent, if it was absent:
    activation creates nothing). *)
Theorem activate_keeps_current_store env w :
  storage_lookup CACHE_NAME (storage (snd (on_activate env w))) =
  storage_lookup CACHE_NAME (storage w).
Proof.
  rewrite on_activate_storage. apply storage_lookup_filter.
  intros c. simpl. reflexivity.
Qed.


Lemma all_cons_settlement {S A} (p : Eff S A) (ps : list (Eff S A)) (s : S) :
  fst (all (p :: ps) s) =
  match fst (p s), fst (all ps (snd (p s))) with
  | Fulfilled a, Fulfilled l => Fulfilled (a :: l)
  | Rejected e, _ => Rejected e
  | Fulfilled _, Rejected e => Rejected e
  end.
Proof.
  cbn [all]. destruct (p s) as [r s1]. cbn [fst snd].
  destruct (all ps s1) as [rs s2]. reflexivity.
Qed.

(** One callback of [keyList.map] rejects exactly for an old key whose
    deletion fails. *)
Lemma remove_if_old_settlement env k w :
  if negb (k =? CACHE_NAME) && storage_fails env k
  then exists err, fst (remove_if_old env k w) = Rejected err
  else exists deleted, fst (remove_if_old env k w) = Fulfilled deleted.
Proof.
  unfold remove_if_old.
  destruct (negb (k =? CACHE_NAME)); cbn [andb].
  - cbv [then_ console_log caches_delete call reject resolve].
    destruct (storage_fails env k); cbn [fst snd]; eauto.
  - cbv [resolve]. cbn [fst]. eauto.
Qed.

(** The settlement of [Promise.all] over the deletions: rejected as soon
    as the deletion of one old key fails, fulfilled with one result per
    key otherwise. *)
Lemma remove_all_settlement env ks w :
  if existsb (fun k => negb (k =? CACHE_NAME) && storage_fails env k) ks
  then exists err, fst (all (map (remove_if_old env) ks) w) = Rejected err
  else exists results,
         fst (all (map (remove_if_old env) ks) w) = Fulfilled results /\
         length results = length ks.
Proof.
  revert w. induction ks as [|k ks IH]; intros w.
  - simpl. exists []. split; reflexivity.
  - cbn [map existsb]. unfold Promise. rewrite !all_cons_settlement.
    fold (Promise (option bool)).
    pose proof (remove_if_old_settlement env k w) as Hk.
    specialize (IH (snd (remove_if_old env k w))).
    destruct (negb (k =? CACHE_NAME) && storage_fails env k); cbn [orb].
    + destruct Hk as [err ->]. eauto.
    + destruct Hk as [deleted ->].
      destruct (existsb _ ks).
      * destruct IH as [err ->]. eauto.
      * destruct IH as (results & -> & Hlen). eexists. split; [reflexivity|].
        simpl. congruence.
Qed.

(** X16.  The promise the activate listener hands to [waitUntil] rejects
    exactly when the deletion of some store of another name fails;
    otherwise it fulfils with one result per store.  In both cases the
    listener itself does not throw. *)
Theorem activate_rejects_iff_deletion_fails env w :
  let failing :=
    existsb (fun k => negb (k =? CACHE_NAME) && storage_fails env k)
      (map fst (storage w)) in
  (failing = true ->
     exists err, fst (on_activate env w) = Fulfilled (Rejected err)) /\
  (failing = false ->
     exists results,
       fst (on_activate env w) = Fulfilled (Fulfilled results) /\
       length results = length (storage w)).
Proof.
  intro failing.
  pose proof (remove_all_settlement env (map fst (storage w))
                (with_call ClientsClaim
                   (with_call CachesKeys
                      (with_log (Log "[Service Worker] Activate") w)))) as H.
  fold failing in H.
  assert (Hfst : fst (on_activate env w) =
                 Fulfilled (fst (all (map (remove_if_old env) (map fst (storage w)))
                                   (with_call ClientsClaim
                                      (with_call CachesKeys
                                         (with_log (Log "[Service Worker] Activate") w))))))
    by reflexivity.
  rewrite Hfst. destruct failing; split; try discriminate; intros _.
  - destruct H as [err ->]. eauto.
  - destruct H as (results & -> & Hlen). rewrite length_map in Hlen. eauto.
Qed.

Lemma activate_rejects_iff_deletion_fails_witness :
  let stuck := {| origin := "https://tracker.example";
                  scope := "https://tracker.example/core/";
                  base := "https://tracker.example/core/";
                  network := fun _ => None;
                  storage_fails := fun name => name =? "daily-tracker-v1.9";
                  clients := [] |} in
  let w := Fixture.stored [ ("daily-tracker-v1.9", []);
                            ("daily-tracker-v2.0", []);
                            (CACHE_NAME, []) ] in
  (exists err, fst (on_activate stuck w) = Fulfilled (Rejected err)) /\
  (exists results,
     fst (on_activate Fixture.online w) = Fulfilled (Fulfilled results) /\
     length results = 3).
Proof.
  intros stuck w. split.
  - destruct (activate_rejects_iff_deletion_fails stuck w) as [H _].
    apply H. reflexivity.
  - destruct (activate_rejects_iff_deletion_fails Fixture.online w) as [_ H].
    apply H. reflexivity.
Defined.

(** *** What precaching leaves alone *)

Lemma acceptable_all_or_not env urls :
  (forall u, In u urls -> acceptable env u <> None) \/
  (exists u, In u urls /\ acceptable env u = None).
Proof.
  induction urls as [|a urls IH].
  - left. intros u [].
  - destruct (acceptable env a) eqn:Ea.
    + destruct IH as [Hok | (u & Hu & Hbad)].
      * left. intros u [<- | Hu]; [congruence | apply Hok, Hu].
      * right. exists u. split; [right; exact Hu | exact Hbad].
    + right. exists a. split; [left; reflexivity | exact Ea].
Qed.

Lemma entries_requests env urls entries :
  map Some entries = map (acceptable env) urls ->
  forall e, In e entries -> exists u, In u urls /\ fst e = request_of env u.
Proof.
  intros Hmap e He. apply (in_map Some) in He. rewrite Hmap in He.
  apply in_map_iff in He. destruct He as (u & Hu & Hin).
  exists u. split; [exact Hin|]. unfold acceptable in Hu.
  destruct (network env (request_of env u)); [|discriminate].
  destruct (_ && _); [|discriminate]. injection Hu as <-. reflexivity.
Qed.

(** A batch of puts leaves the answers for every URL outside the batch
    alone. *)
Lemma insert_all_other entries c query :
  (forall e, In e entries -> url (fst e) <> url query) ->
  cache_match (insert_all entries c) query = cache_match c query.
Proof.
  revert c. induction entries as [|e entries IH]; intros c Hne; [reflexivity|].
  cbn [insert_all fold_left].
  change (cache_match (insert_all entries (cache_insert (fst e) (snd e) c)) query
          = cache_match c query).
  rewrite IH by (intros x Hx; apply Hne; right; exact Hx).
  apply cache_match_insert_other, Hne. left. reflexivity.
Qed.

(** The footprint of [cache.addAll] on an existing store, whether it
    fulfils or rejects. *)
Lemma addAll_footprint env name urls w c0 :
  storage_lookup name (storage w) = Some c0 ->
  let w' := snd (cache_addAll env name urls w) in
  (forall other, other <> name ->
     storage_lookup other (storage w') = storage_lookup other (storage w)) /\
  exists c', storage_lookup name (storage w') = Some c' /\
    forall query,
      (forall u, In u urls -> url (request_of env u) <> url query) ->
      cache_match c' query = cache_match c0 query.
Proof.
  intros Hc0 w'. subst w'.
  destruct (acceptable_all_or_not env urls) as [Hok | Hbad].
  - destruct (addAll_fulfils env name urls w Hok)
      as (_ & _ & entries & Hmap & Hs).
    rewrite Hs. split.
    + intros other Hne. apply storage_lookup_update_other, Hne.
    + rewrite storage_lookup_update, Hc0. cbn [option_map].
      eexists; split; [reflexivity|].
      intros query Hq. apply insert_all_other. intros e He.
      destruct (entries_requests env urls entries Hmap e He) as (u & Hu & ->).
      apply Hq, Hu.
  - destruct (addAll_rejects env name urls w Hbad) as (_ & Hs & _).
    rewrite Hs. split; [reflexivity|]. eauto.
Qed.

Lemma opened_other name other s :
  other <> name ->
  storage_lookup other (opened name s) = storage_lookup other s.
Proof.
  intros Hne. unfold opened. destruct (storage_lookup name s); [reflexivity|].
  rewrite storage_lookup_app. destruct (storage_lookup other s); [reflexivity|].
  simpl. destruct (String.eqb_spec name other); [congruence | reflexivity].
Qed.

Lemma opened_same name s c0 :
  storage_lookup name s = Some c0 ->
  storage_lookup name (opened name s) = Some c0.
Proof.
  intros H. unfold opened. rewrite H. exact H.
Qed.

(** Storage after the install listener is storage after its
    [cache.addAll]: the [catch] only logs. *)
Lemma on_install_storage env w :
  storage (snd (on_install env w)) =
  storage (snd (cache_addAll env CACHE_NAME FILES_TO_CACHE
                  (with_log (Log "[Service Worker] Caching app shell and content")
                     (snd (caches_open CACHE_NAME
                             (with_call SkipWaiting
                                (with_log (Log "[Service Worker] Install") w))))))).
Proof.
  cbv [on_install then_ console_log call handed_over catch_ caches_open
       console_error].
  cbn [fst snd].
  match goal with
  | |- context [cache_addAll env CACHE_NAME FILES_TO_CACHE ?w2] =>
      destruct (cache_addAll env CACHE_NAME FILES_TO_CACHE w2) as [[a|e] w3]
  end; reflexivity.
Qed.

(** Storage after the [update-cache] branch, likewise. *)
Lemma on_update_cache_storage env w :
  storage (snd (on_message env update_cache_message w)) =
  storage (snd (cache_addAll env CACHE_NAME FILES_TO_CACHE
                  (snd (caches_open CACHE_NAME (with_log received w))))).
Proof.
  reflexivity.
Qed.

(** The footprint of opening the current store and adding the assets. *)
Lemma open_addAll_footprint env w0 (extra : World -> World) :
  (forall w, storage (extra w) = storage w) ->
  let w' := snd (cache_addAll env CACHE_NAME FILES_TO_CACHE
                   (extra (snd (caches_open CACHE_NAME w0)))) in
  (forall other, other <> CACHE_NAME ->
     storage_lookup other (storage w') = storage_lookup other (storage w0)) /\
  (forall c0, storage_lookup CACHE_NAME (storage w0) = Some c0 ->
     exists c', storage_lookup CACHE_NAME (storage w') = Some c' /\
       forall query,
         (forall u, In u FILES_TO_CACHE ->
            url (request_of env u) <> url query) ->
         cache_match c' query = cache_match c0 query).
Proof.
  intros Hextra w'. subst w'.
  destruct (caches_open_spec CACHE_NAME w0) as (_ & Hl & Ho & _).
  cbn zeta in Hl, Ho.
  set (w2 := extra (snd (caches_open CACHE_NAME w0))).
  assert (Hl2 : storage_lookup CACHE_NAME (storage w2) =
                Some (match storage_lookup CACHE_NAME (storage w0) with
                      | Some c => c
                      | None => []
                      end))
    by (unfold w2; rewrite Hextra; exact Hl).
  destruct (addAll_footprint env CACHE_NAME FILES_TO_CACHE w2 _ Hl2)
    as (Hothers & c' & Hc' & Hsame).
  split.
  - intros other Hne. rewrite (Hothers other Hne). unfold w2.
    rewrite Hextra. apply Ho, Hne.
  - intros c0 Hc0. exists c'. split; [exact Hc'|].
    rewrite Hc0 in Hsame. exact Hsame.
Qed.

(** X17.  Precaching leaves the rest of the caches alone.  Whether population
    succeeds or fails, the install listener changes no store of another
    name, and in the current store it changes no answer for a URL that is
    not one of the assets: what the fetch listener cached at run time
    stays.  The same holds of the [update-cache] message. *)
Theorem precache_keeps_unrelated_entries env w :
  let unrelated (query : Request) :=
    forall u, In u FILES_TO_CACHE -> url (request_of env u) <> url query in
  let kept (w' : World) :=
    (forall other, other <> CACHE_NAME ->
       storage_lookup other (storage w') = storage_lookup other (storage w)) /\
    (forall c0, storage_lookup CACHE_NAME (storage w) = Some c0 ->
       exists c', storage_lookup CACHE_NAME (storage w') = Some c' /\
         forall query, unrelated query ->
           cache_match c' query = cache_match c0 query) in
  kept (snd (on_install env w)) /\
  kept (snd (on_message env update_cache_message w)).
Proof.
  intros unrelated kept. subst unrelated kept. cbn beta. split.
  - rewrite on_install_storage.
    exact (open_addAll_footprint env
             (with_call SkipWaiting (with_log (Log "[Service Worker] Install") w))
             (with_log (Log "[Service Worker] Caching app shell and content"))
             (fun _ => eq_refl)).
  - rewrite on_update_cache_storage.
    exact (open_addAll_footprint env (with_log received w) (fun w0 => w0)
             (fun _ => eq_refl)).
Qed.

(** X18.  With every asset acceptable, an [update-cache] message is dispatched
    without error, its promise fulfils, and every asset of the list is
    afterwards retrievable from the current store under its request,
    with the response the network gave. *)
Theorem update_cache_makes_assets_retrievable env w :
  (forall u, In u FILES_TO_CACHE -> acceptable env u <> None) ->
  fst (on_message env update_cache_message w) =
    Fulfilled (UpdateCache (Fulfilled tt)) /\
  Forall (fun u =>
            exists c resp,
              storage_lookup CACHE_NAME
                (storage (snd (on_message env update_cache_message w))) = Some c /\
              network env (request_of env u) = Some resp /\
              cache_match c (request_of env u) = Some resp)
    FILES_TO_CACHE.
Proof.
  intros Hok.
  destruct (update_cache_readds_assets env w Hok) as (Hr & c & Hc & Hall).
  split; [exact Hr|]. apply Forall_forall. intros u Hu.
  destruct (Hall u Hu) as (resp & Hn & Hm). eauto.
Qed.

Lemma update_cache_makes_assets_retrievable_witness :
  fst (on_message Fixture.online update_cache_message Fixture.fresh) =
    Fulfilled (UpdateCache (Fulfilled tt)) /\
  Forall (fun u =>
            exists c resp,
              storage_lookup CACHE_NAME
                (storage (snd (on_message Fixture.online update_cache_message
                                 Fixture.fresh))) = Some c /\
              network Fixture.online (request_of Fixture.online u) = Some resp /\
              cache_match c (request_of Fixture.online u) = Some resp)
    FILES_TO_CACHE.
Proof.
  exact (update_cache_makes_assets_retrievable Fixture.online Fixture.fresh
           all_assets_acceptable_online).
Defined.

(** *** What the install listener asks of the host *)

Lemma addAll_calls env name urls w :
  calls (snd (cache_addAll env name urls w)) =
  (calls w ++ CacheAddAll name urls :: fetch_calls env urls)%list.
Proof.
  unfold cache_addAll.
  destruct (fetch_all_spec env urls (with_call (CacheAddAll name urls) w))
    as (_ & _ & Hc & _).
  cbv [then_ call]. cbn [fst snd].
  destruct (all (map (fetch_for_cache env) urls) _) as [[entries|err] w2];
    cbn [fst snd calls with_storage] in *; rewrite Hc;
    cbn [calls with_call]; rewrite <- app_assoc; reflexivity.
Qed.

(** X19.  Whatever the caches hold and whatever the network does, the install
    listener calls [skipWaiting] first, opens the current store, and has
    every asset of the list fetched exactly once, in list order, with a
    GET request: a failing asset does not keep the later ones from being
    requested, and nothing is deleted. *)
Theorem install_requests_every_asset env w :
  let r := on_install env w in
  fst r = Fulfilled (Fulfilled tt) /\
  calls (snd r) =
    (calls w ++ [SkipWaiting; CachesOpen CACHE_NAME;
                 CacheAddAll CACHE_NAME FILES_TO_CACHE]
       ++ map (fun u => Fetch {| url := resolve_url env u; method := "GET" |})
            FILES_TO_CACHE)%list.
Proof.
  intro r. subst r.
  cbv [on_install then_ console_log call handed_over catch_ caches_open
       console_error].
  cbn [fst snd].
  match goal with
  | |- context [cache_addAll env CACHE_NAME FILES_TO_CACHE ?w2] =>
      pose proof (addAll_calls env CACHE_NAME FILES_TO_CACHE w2) as Hc;
      destruct (cache_addAll env CACHE_NAME FILES_TO_CACHE w2) as [[[]|e] w3]
  end;
    cbn [fst snd calls with_log] in *; rewrite Hc;
    (split; [reflexivity|]);
    destruct (storage_lookup CACHE_NAME _);
    cbn [calls with_log with_call with_storage storage];
    repeat rewrite <- app_assoc; reflexivity.
Qed.
